(** * Resilient email sending service: a shallow embedding of [emailservice.js]

    The development follows the source class [EmailService] method by
    method.  The service object is a record with the fields the constructor
    initialises; the JavaScript object used as the status table is a
    [gmap string SendStatus], the [Set] of sent ids is a [gset string], the
    queue and the ledger of send instants are lists.

    Everything outside the class is an explicit environment:
    - the wall clock read by [Date.now()] is the field [clock] of [World];
      it advances by the delay of every timer set by [sleep] and by the
      latency of every provider call, and by nothing else;
    - a provider is an object with a [name] and a [sendEmail] method whose
      answer may change from call to call (the mock provider draws a random
      number); the answer to the [n]-th provider call of the run is
      [respond p n details];
    - every effect the claims speak about leaves an [Event] in the list a
      method returns next to its result, in chronological order.

    The methods are given twice.  First as functions of the service and
    the world, for a call during which no other call runs: calls of
    [sendEmail] that are awaited one after the other, as in the example
    driver of the source, against providers that throw nothing but errors
    with a message.  Then as a runtime in which calls are suspended at each
    [await] and resumed by an event loop, so that calls may overlap, and in
    which a provider may throw a value without a message.  An awaited call
    does the same in both ([awaited_call_agrees]).  What holds however the
    calls overlap is stated over [Moves]: new calls and resumptions of
    suspended calls, in any order. *)

From stdpp Require Import gmap strings list.
From Stdlib Require Import ZArith QArith Lia.

Local Open Scope nat_scope.

(** ** Data *)

(** The payload handed to a provider: [{ to, subject, body }]. *)
Record EmailDetails := mkDetails {
  to : string;
  subject : string;
  body : string
}.

(** The object [{ success, message }] built by [sendEmail] and
    [trySendWithRetries] and stored in the status table. *)
Record SendStatus := mkStatus {
  success : bool;
  message : string
}.

(** What one call [provider.sendEmail(emailDetails)] does: it resolves to a
    response with a truthy [success], resolves to a response with a falsy
    [success] and a [message], or throws an [Error] with a message. *)
Inductive Outcome :=
| Delivered
| Rejected (reason : string)
| Fault (reason : string).

Record Response := mkResponse {
  outcome : Outcome;
  latency : N            (* milliseconds the call takes *)
}.

Record Provider := mkProvider {
  name : string;
  respond : nat -> EmailDetails -> Response
}.

Record QueueEntry := mkEntry {
  emailId : string;
  emailDetails : EmailDetails
}.

(** The fields of [EmailService], in the order of the constructor. *)
Record EmailService := mkService {
  providers : list Provider;
  currentProviderIndex : nat;
  maxRetries : nat;
  rateLimit : nat;
  status : gmap string SendStatus;
  sentEmails : gset string;
  emailQueue : list QueueEntry;
  lastSentTimestamps : list Z
}.

Record World := mkWorld {
  clock : Z;             (* Date.now(), in milliseconds *)
  ncalls : nat           (* provider calls made so far *)
}.

Inductive Event :=
| EvCall (idx : nat) (details : EmailDetails)  (* providers[idx].sendEmail(details) *)
| EvSleep (ms : Z)                             (* this.sleep(ms) *)
| EvSwitch (idx : nat)                         (* switchProvider set the cursor to idx *)
| EvShift (id : string)                        (* this.emailQueue.shift() *)
| EvSent (id : string) (t : Z)                 (* sentEmails.add(id); lastSentTimestamps.push(t) *)
| EvStatus (id : string) (st : SendStatus).    (* this.status[id] = st *)

(** A method either returns a value or throws; both leave a service and a
    world behind. *)
Inductive Result (A : Type) :=
| Val (a : A) (s : EmailService) (w : World)
| Exn (err : string) (s : EmailService) (w : World).
Arguments Val {A} a s w.
Arguments Exn {A} err s w.

(** The value a call of [sendEmail] resolves to. *)
Inductive Returned :=
| RetUndefined
| RetStatus (st : SendStatus).

Definition resultService {A} (r : Result A) : EmailService :=
  match r with Val _ s _ | Exn _ s _ => s end.

Definition resultWorld {A} (r : Result A) : World :=
  match r with Val _ _ w | Exn _ _ w => w end.

(** Field updates. *)
Definition setCursor (i : nat) (s : EmailService) : EmailService :=
  mkService (providers s) i (maxRetries s) (rateLimit s) (status s)
            (sentEmails s) (emailQueue s) (lastSentTimestamps s).

Definition setStatus (m : gmap string SendStatus) (s : EmailService) : EmailService :=
  mkService (providers s) (currentProviderIndex s) (maxRetries s) (rateLimit s) m
            (sentEmails s) (emailQueue s) (lastSentTimestamps s).

Definition setSentEmails (x : gset string) (s : EmailService) : EmailService :=
  mkService (providers s) (currentProviderIndex s) (maxRetries s) (rateLimit s)
            (status s) x (emailQueue s) (lastSentTimestamps s).

Definition setQueue (q : list QueueEntry) (s : EmailService) : EmailService :=
  mkService (providers s) (currentProviderIndex s) (maxRetries s) (rateLimit s)
            (status s) (sentEmails s) q (lastSentTimestamps s).

Definition setLedger (l : list Z) (s : EmailService) : EmailService :=
  mkService (providers s) (currentProviderIndex s) (maxRetries s) (rateLimit s)
            (status s) (sentEmails s) (emailQueue s) l.

(** ** The class [EmailService] *)

(** [constructor(providers, maxRetries = 3, rateLimit = 5)]. *)
Definition constructor (ps : list Provider) (retries limit : nat) : EmailService :=
  mkService ps 0 retries limit ∅ ∅ [] [].

Definition defaultService (ps : list Provider) : EmailService := constructor ps 3 5.

(** The delay of the timer set by [setTimeout(resolve, ms)]: a delay above
    2^31 - 1 ms or below 1 ms is set to 1 ms. *)
Definition maxTimerDelay : Z := 2147483647.

Definition timerDelay (ms : Z) : Z :=
  if ((ms <? 1) || (maxTimerDelay <? ms))%Z then 1%Z else ms.

(** [sleep(ms)]: the awaited timer; the clock moves on by the delay of the
    timer. *)
Definition sleep (ms : Z) (w : World) : World :=
  mkWorld (clock w + timerDelay ms)%Z (ncalls w).

Arguments timerDelay : simpl never.

(** The polling interval of the rate limiter is within the range of the
    timer. *)
Ltac poll_delay := change (timerDelay 1000) with 1000%Z in *.

(** The provider call itself: the answer is the provider's answer to call
    number [ncalls w]; the clock moves on by its latency. *)
Definition callProvider (p : Provider) (d : EmailDetails) (w : World) : Response * World :=
  let r := respond p (ncalls w) d in
  (r, mkWorld (clock w + Z.of_N (latency r))%Z (S (ncalls w))).

Definition typeError : string := "TypeError"%string.

(** [switchProvider()]: the cursor moves to its successor modulo the number
    of providers; the log line then reads the name of the new current
    provider, which throws when there is none (an empty provider list, where
    JavaScript's [%] gives NaN). *)
Definition switchProvider (s : EmailService) (w : World) : Result unit * list Event :=
  let s' := setCursor ((currentProviderIndex s + 1) mod length (providers s)) s in
  match providers s' !! currentProviderIndex s' with
  | Some _ => (Val tt s' w, [EvSwitch (currentProviderIndex s')])
  | None => (Exn typeError s' w, [])
  end.

(** The body of the [try] block after the provider call: [None] when the
    block returns the success status, [Some msg] when control reaches the
    [catch] clause with an error carrying [msg].  A rejected response is
    rethrown as [new Error(response.message)], a fault arrives as it is. *)
Definition tryBlock (o : Outcome) : option string :=
  match o with
  | Delivered => None
  | Rejected reason => Some reason
  | Fault reason => Some reason
  end.

Definition sentOk : SendStatus := mkStatus true "Email sent successfully."%string.
Definition allFailed : SendStatus := mkStatus false "All attempts failed."%string.
Definition duplicatePrevented : SendStatus := mkStatus true "Duplicate email prevented."%string.

(** [Math.pow(2, attempt) * 100].  The double is this integer up to attempt
    1017 and [Infinity] from attempt 1018 on; from attempt 25 on either is
    above the range of the timer, which treats both alike.  In the events of
    an attempt from 1018 on the integer stands for [Infinity]. *)
Definition backoffTime (attempt : nat) : Z := (2 ^ Z.of_nat attempt * 100)%Z.

Definition prepend {A} (evs : list Event) (r : option (Result A * list Event))
  : option (Result A * list Event) :=
  match r with
  | Some (x, evs') => Some (x, evs ++ evs')
  | None => None
  end.

(** The [while (attempt < this.maxRetries)] loop of [trySendWithRetries].
    [fuel] bounds the number of times the loop test is evaluated. *)
Fixpoint retryLoop (fuel attempt : nat) (id : string) (d : EmailDetails)
    (s : EmailService) (w : World) : option (Result SendStatus * list Event) :=
  match fuel with
  | O => None
  | S fuel' =>
    if (attempt <? maxRetries s)%nat then
      match providers s !! currentProviderIndex s with
      | None => Some (Exn typeError s w, [])       (* provider.name of undefined *)
      | Some provider =>
        let '(r, w1) := callProvider provider d w in
        let call := EvCall (currentProviderIndex s) d in
        match tryBlock (outcome r) with
        | None => Some (Val sentOk s w1, [call])
        | Some _ =>
          let attempt' := S attempt in
          if (attempt' <? maxRetries s)%nat then
            let t := backoffTime attempt' in
            prepend [call; EvSleep t] (retryLoop fuel' attempt' id d s (sleep t w1))
          else
            match switchProvider s w1 with
            | (Val _ s' w', evs) => prepend (call :: evs) (retryLoop fuel' attempt' id d s' w')
            | (Exn e s' w', evs) => Some (Exn e s' w', call :: evs)
            end
        end
      end
    else Some (Val allFailed s w, [])
  end.

(** [trySendWithRetries(emailId, emailDetails)]. *)
Definition trySendWithRetries (id : string) (d : EmailDetails)
    (s : EmailService) (w : World) : option (Result SendStatus * list Event) :=
  retryLoop (S (maxRetries s)) 0 id d s w.

(** The rate-limit filter: keep the instants of the last minute. *)
Definition recent (now : Z) (l : list Z) : list Z :=
  filter (λ timestamp, (now - timestamp < 60000)%Z) l.

(** One evaluation of the loop test of [processQueue] and, when the queue is
    not empty, one execution of the loop body. *)
Inductive Step :=
| Done (s : EmailService) (w : World)          (* the loop test failed *)
| Again (s : EmailService) (w : World)         (* back to the loop test *)
| Raised (err : string) (s : EmailService) (w : World).

Definition recordOutcome (id : string) (st : SendStatus) (s : EmailService) (w : World)
  : EmailService * list Event :=
  let '(s1, evs) :=
    if success st
    then (setLedger (lastSentTimestamps s ++ [clock w])
            (setSentEmails ({[id]} ∪ sentEmails s) s), [EvSent id (clock w)])
    else (s, []) in
  (setStatus (<[id := st]> (status s1)) s1, evs ++ [EvStatus id st]).

Definition drainStep (s : EmailService) (w : World) : option (Step * list Event) :=
  if (length (emailQueue s) =? 0)%nat then Some (Done s w, [])
  else
    let now := clock w in
    let s1 := setLedger (recent now (lastSentTimestamps s)) s in
    if (rateLimit s1 <=? length (lastSentTimestamps s1))%nat then
      Some (Again s1 (sleep 1000 w), [EvSleep 1000])
    else
      match emailQueue s1 with
      | [] => Some (Raised typeError s1 w, [])     (* destructuring undefined *)
      | entry :: rest =>
        let s2 := setQueue rest s1 in
        let id := emailId entry in
        match trySendWithRetries id (emailDetails entry) s2 w with
        | None => None
        | Some (Exn e s3 w3, evs) => Some (Raised e s3 w3, EvShift id :: evs)
        | Some (Val st s3 w3, evs) =>
          let '(s4, evs') := recordOutcome id st s3 w3 in
          Some (Again s4 w3, EvShift id :: evs ++ evs')
        end
      end.

(** [processQueue()]: the [while (this.emailQueue.length)] loop.  It has no
    [return] statement, so it resolves to [undefined]. *)
Fixpoint processQueue (fuel : nat) (s : EmailService) (w : World)
  : option (Result unit * list Event) :=
  match fuel with
  | O => None
  | S fuel' =>
    match drainStep s w with
    | None => None
    | Some (Done s' w', evs) => Some (Val tt s' w', evs)
    | Some (Raised e s' w', evs) => Some (Exn e s' w', evs)
    | Some (Again s' w', evs) => prepend evs (processQueue fuel' s' w')
    end
  end.

(** [sendEmail(emailId, emailDetails)]. *)
Definition sendEmail (fuel : nat) (id : string) (d : EmailDetails)
    (s : EmailService) (w : World) : option (Result Returned * list Event) :=
  if decide (id ∈ sentEmails s) then
    Some (Val (RetStatus duplicatePrevented) s w, [])
  else
    let s1 := setQueue (emailQueue s ++ [mkEntry id d]) s in
    match processQueue fuel s1 w with
    | None => None
    | Some (Val _ s2 w2, evs) => Some (Val RetUndefined s2 w2, evs)
    | Some (Exn e s2 w2, evs) => Some (Exn e s2 w2, evs)
    end.

(** ** Reading the event lists *)

(** The provider indices called, in order. *)
Definition calledProviders (evs : list Event) : list nat :=
  omap (λ e, match e with EvCall i _ => Some i | _ => None end) evs.

(** The arguments of [sleep], in order. *)
Definition waits (evs : list Event) : list Z :=
  omap (λ e, match e with EvSleep ms => Some ms | _ => None end) evs.

(** The cursor values written by [switchProvider], in order. *)
Definition switches (evs : list Event) : list nat :=
  omap (λ e, match e with EvSwitch i => Some i | _ => None end) evs.

(** The instants pushed on the ledger, in order. *)
Definition sentTimes (evs : list Event) : list Z :=
  omap (λ e, match e with EvSent _ t => Some t | _ => None end) evs.

(** The ids added to [sentEmails], in order. *)
Definition sentIds (evs : list Event) : list string :=
  omap (λ e, match e with EvSent id _ => Some id | _ => None end) evs.

(** The writes to the status table, in order. *)
Definition statusWrites (evs : list Event) : list (string * SendStatus) :=
  omap (λ e, match e with EvStatus id st => Some (id, st) | _ => None end) evs.

(** The ids whose recorded outcome was a success. *)
Definition successIds (evs : list Event) : list string :=
  omap (λ e, match e with
             | EvStatus id st => if success st then Some id else None
             | _ => None
             end) evs.

(** Pops and status writes only: the milestones of the drain loop. *)
Definition milestones (evs : list Event) : list Event :=
  omap (λ e, match e with EvShift _ | EvStatus _ _ => Some e | _ => None end) evs.

(** ** Runs, invariants and relations used in the statements *)

(** [k] failed attempts against provider [idx], numbered [a+1 .. a+k], each
    followed by its backoff wait. *)
Fixpoint failedAttempts (idx : nat) (d : EmailDetails) (a k : nat) : list Event :=
  match k with
  | O => []
  | S k' => EvCall idx d :: EvSleep (backoffTime (S a)) :: failedAttempts idx d (S a) k'
  end.

(** The successor of the cursor in the cyclic provider list. *)
Definition nextIndex (s : EmailService) : nat :=
  (currentProviderIndex s + 1) mod length (providers s).

(** A provider call failed when control reached the [catch] clause. *)
Definition failed (r : Response) : Prop := outcome r ≠ Delivered.

(** What a run of the retry loop from attempt counter [a] can look like. *)
Inductive RetryRun (d : EmailDetails) (s : EmailService) (w : World) (a : nat)
  : Result SendStatus -> list Event -> Prop :=
| RetrySkipped :
    maxRetries s ≤ a ->
    RetryRun d s w a (Val allFailed s w) []
| RetryUndefined :
    a < maxRetries s ->
    providers s !! currentProviderIndex s = None ->
    RetryRun d s w a (Exn typeError s w) []
| RetrySent p k w' :
    a + k < maxRetries s ->
    providers s !! currentProviderIndex s = Some p ->
    (forall i, i < k -> failed (respond p (ncalls w + i) d)) ->
    outcome (respond p (ncalls w + k) d) = Delivered ->
    ncalls w' = ncalls w + k + 1 ->
    (clock w ≤ clock w')%Z ->
    RetryRun d s w a (Val sentOk s w')
      (failedAttempts (currentProviderIndex s) d a k ++ [EvCall (currentProviderIndex s) d])
| RetryExhausted p k w' :
    a + k + 1 = maxRetries s ->
    providers s !! currentProviderIndex s = Some p ->
    (forall i, i < k + 1 -> failed (respond p (ncalls w + i) d)) ->
    ncalls w' = ncalls w + k + 1 ->
    (clock w ≤ clock w')%Z ->
    RetryRun d s w a (Val allFailed (setCursor (nextIndex s) s) w')
      (failedAttempts (currentProviderIndex s) d a k
         ++ [EvCall (currentProviderIndex s) d; EvSwitch (nextIndex s)]).

(** The service and world a step of the drain loop leaves behind. *)
Definition stepService (st : Step) : EmailService :=
  match st with Done s _ | Again s _ | Raised _ s _ => s end.

Definition stepWorld (st : Step) : World :=
  match st with Done _ w | Again _ w | Raised _ _ w => w end.

(** The drain loop as a relation: the runs of [processQueue] that come to
    an end, whatever the fuel. *)
Inductive Drains : EmailService -> World -> Result unit -> list Event -> Prop :=
| DrainsDone s w s' w' evs :
    drainStep s w = Some (Done s' w', evs) ->
    Drains s w (Val tt s' w') evs
| DrainsRaised s w err s' w' evs :
    drainStep s w = Some (Raised err s' w', evs) ->
    Drains s w (Exn err s' w') evs
| DrainsAgain s w s1 w1 evs1 r evs :
    drainStep s w = Some (Again s1 w1, evs1) ->
    Drains s1 w1 r evs ->
    Drains s w r (evs1 ++ evs).

(** The state the loop body works on once the rate limiter has admitted the
    head of the queue: ledger pruned, head popped. *)
Definition admitted (rest : list QueueEntry) (s : EmailService) (w : World) : EmailService :=
  setQueue rest (setLedger (recent (clock w) (lastSentTimestamps s)) s).

(** The cursor is a valid index, the cap admits something, and no recorded
    instant lies in the future. *)
Definition WellFormed (s : EmailService) (w : World) : Prop :=
  currentProviderIndex s < length (providers s) /\
  1 ≤ rateLimit s /\
  Forall (λ t, (t ≤ clock w)%Z) (lastSentTimestamps s).




(** Two providers whose calls take the same time and deliver on the same
    calls; on the other calls either of them may reject or fault, with any
    message. *)
Definition sameAttempts (p p' : Provider) : Prop :=
  forall n d,
    latency (respond p n d) = latency (respond p' n d) /\
    (outcome (respond p n d) = Delivered <-> outcome (respond p' n d) = Delivered).

Definition setProviders (ps : list Provider) (s : EmailService) : EmailService :=
  mkService ps (currentProviderIndex s) (maxRetries s) (rateLimit s) (status s)
            (sentEmails s) (emailQueue s) (lastSentTimestamps s).

Definition onService {A} (f : EmailService -> EmailService)
    (r : option (Result A * list Event)) : option (Result A * list Event) :=
  match r with
  | Some (Val a s w, evs) => Some (Val a (f s) w, evs)
  | Some (Exn e s w, evs) => Some (Exn e (f s) w, evs)
  | None => None
  end.

(** The cursor is a valid index into the provider list. *)
Definition CursorOk (s : EmailService) : Prop :=
  currentProviderIndex s < length (providers s).

(** The four ways an iteration of the drain loop can go. *)
Inductive StepKind (s : EmailService) (w : World) : Step -> list Event -> Prop :=
| StepEmpty :
    emailQueue s = [] ->
    StepKind s w (Done s w) []
| StepLimited e rest :
    emailQueue s = e :: rest ->
    rateLimit s ≤ length (recent (clock w) (lastSentTimestamps s)) ->
    StepKind s w
      (Again (setLedger (recent (clock w) (lastSentTimestamps s)) s) (sleep 1000 w))
      [EvSleep 1000]
| StepResolved e rest st s3 w3 evs :
    emailQueue s = e :: rest ->
    length (recent (clock w) (lastSentTimestamps s)) < rateLimit s ->
    RetryRun (emailDetails e) (admitted rest s w) w 0 (Val st s3 w3) evs ->
    StepKind s w
      (Again (recordOutcome (emailId e) st s3 w3).1 w3)
      (EvShift (emailId e) :: evs ++ (recordOutcome (emailId e) st s3 w3).2)
| StepThrew e rest err s3 w3 evs :
    emailQueue s = e :: rest ->
    length (recent (clock w) (lastSentTimestamps s)) < rateLimit s ->
    RetryRun (emailDetails e) (admitted rest s w) w 0 (Exn err s3 w3) evs ->
    StepKind s w (Raised err s3 w3) (EvShift (emailId e) :: evs).

(** The two milestones of one resolved queue entry: it is popped, and later
    its status is written. *)
Definition resolution (p : string * SendStatus) : list Event :=
  [EvShift p.1; EvStatus p.1 p.2].

(** Replaying status writes on a status table. *)
Definition replay (m : gmap string SendStatus) (ws : list (string * SendStatus))
  : gmap string SendStatus :=
  foldl (λ m p, <[p.1 := p.2]> m) m ws.

(** ** Sample providers and inputs *)

(** A provider that answers every call the same way. *)
Definition always (o : Outcome) (ms : N) (nm : string) : Provider :=
  mkProvider nm (λ _ _, mkResponse o ms).

(** A provider that faults on the first [n] calls of the run and delivers
    afterwards. *)
Definition flaky (n : nat) (ms : N) (nm : string) : Provider :=
  mkProvider nm (λ call _,
    mkResponse (if (call <? n)%nat then Fault "Simulated provider failure."%string
                else Delivered) ms).

Definition reliable : Provider := always Delivered 7 "Provider1"%string.
Definition rejecting : Provider := always (Rejected "mailbox full"%string) 5 "Provider1"%string.
Definition faulting : Provider := always (Fault "connection reset"%string) 5 "Provider1"%string.
Definition backup : Provider := always Delivered 7 "Provider2"%string.

Definition welcome : EmailDetails :=
  mkDetails "user@example.com"%string "Hello"%string "Welcome!"%string.

Definition update : EmailDetails :=
  mkDetails "user2@example.com"%string "Update"%string "Here's your update."%string.

Definition epoch : World := mkWorld 1700000000000 0.

(** The service and the world after [sendEmail("dup", welcome)] on a fresh
    default service with one reliable provider. *)
Definition afterDup : EmailService :=
  mkService [reliable] 0 3 5 (<["dup"%string := sentOk]> ∅) ({["dup"%string]} ∪ ∅)
            [] [1700000000007%Z].

Definition afterDupWorld : World := mkWorld 1700000000007 1.

(** A service with a cap of one send per minute, one instant on the ledger
    and one entry in the queue. *)
Definition cappedService : EmailService :=
  mkService [reliable] 0 3 1 (<["m1"%string := sentOk]> ∅) ({["m1"%string]} ∪ ∅)
            [mkEntry "m2" update] [1700000000007%Z].

(** A backlog of three entries in front of a provider that faults on the
    first four calls of the run. *)
Definition backlog : EmailService :=
  mkService [flaky 4 5 "Provider1"%string; backup] 0 3 5 ∅ ∅
            [mkEntry "a" welcome; mkEntry "b" update; mkEntry "c" welcome] [].

(** The service after [sendEmail("m1", welcome)] failed against a faulting
    first provider: the failure is in the status table, the id is not in
    [sentEmails], the cursor is on the second provider. *)
Definition afterFailure : EmailService :=
  mkService [faulting; backup] 1 3 5 (<["m1"%string := allFailed]> ∅) ∅ [] [].

Definition afterFailureWorld : World := mkWorld 1700000000615 3.

(** Two providers, the first rejecting every call, two attempts per
    message, and a backlog of two entries. *)
Definition failoverService : EmailService :=
  mkService [rejecting; backup] 0 2 5 ∅ ∅
            [mkEntry "m1" welcome; mkEntry "m2" update] [].

(** ** The class [MockEmailProvider] and the example driver *)

(** [MockEmailProvider]: a name and a failure rate.  Rates and random draws
    are double-precision numbers between 0 and 1; these are rationals, and
    [<] on them is [<] on their values. *)
Record MockEmailProvider := mkMock {
  mockName : string;
  failureRate : Q
}.

(** The doubles written [0.3], [0.1] and [0.2] in the source. *)
Definition double_0_3 : Q := 5404319552844595 # 18014398509481984.
Definition double_0_1 : Q := 3602879701896397 # 36028797018963968.
Definition double_0_2 : Q := 3602879701896397 # 18014398509481984.

(** [constructor(name, failureRate = 0.2)] with the default taken. *)
Definition defaultMock (nm : string) : MockEmailProvider := mkMock nm double_0_2.

Definition simulatedFailure : string := "Simulated provider failure."%string.

(** [MockEmailProvider.sendEmail(emailDetails)], with the value of
    [Math.random()] as an argument: it throws when the draw is below the
    failure rate and resolves to [{ success: true }] otherwise. *)
Definition mockSendEmail (m : MockEmailProvider) (random : Q) (d : EmailDetails) : Outcome :=
  if Qlt_le_dec random (failureRate m) then Fault simulatedFailure else Delivered.

(** A mock provider as a provider of the service: the [n]-th provider call of
    the run draws [draws n] and takes [ms n] milliseconds. *)
Definition mockProvider (m : MockEmailProvider) (draws : nat -> Q) (ms : nat -> N) : Provider :=
  mkProvider (mockName m) (λ n d, mkResponse (mockSendEmail m (draws n) d) (ms n)).

(** The example driver at the end of the source: two mock providers, a
    default service, and two awaited calls of [sendEmail]. *)
Definition exampleService (draws : nat -> Q) (ms : nat -> N) : EmailService :=
  let provider1 := mkMock "Provider1" double_0_3 in
  let provider2 := mkMock "Provider2" double_0_1 in
  defaultService [mockProvider provider1 draws ms; mockProvider provider2 draws ms].

Definition exampleUsage (draws : nat -> Q) (ms : nat -> N) (fuel : nat) (w : World)
  : option (Result Returned * list Event) :=
  match sendEmail fuel "email1" welcome (exampleService draws ms) w with
  | Some (Val _ s1 w1, evs1) => prepend evs1 (sendEmail fuel "email2" update s1 w1)
  | other => other
  end.

(** ** Notions used in the further properties *)

(** [switchProvider()] called [k] times in a row. *)
Fixpoint switchTimes (k : nat) (s : EmailService) (w : World) : Result unit * list Event :=
  match k with
  | O => (Val tt s w, [])
  | S k' =>
    match switchProvider s w with
    | (Val _ s' w', evs) => let '(r, evs') := switchTimes k' s' w' in (r, evs ++ evs')
    | other => other
    end
  end.

(** The failed status writes of a run. *)
Definition failureWrites (evs : list Event) : list (string * SendStatus) :=
  filter (λ p, success p.2 = false) (statusWrites evs).

(** The sum of the arguments of [sleep]. *)
Definition totalWait (evs : list Event) : Z := foldr Z.add 0%Z (waits evs).

(** The time the timers set by [sleep] take. *)
Definition totalDelay (evs : list Event) : Z :=
  foldr Z.add 0%Z (map timerDelay (waits evs)).

(** The time the [k] provider calls numbered [n], [n+1], ... take. *)
Fixpoint totalLatency (p : Provider) (d : EmailDetails) (n k : nat) : Z :=
  match k with
  | O => 0
  | S k' => Z.of_N (latency (respond p n d)) + totalLatency p d (S n) k'
  end.


(** A stream of draws that are all one half, and provider calls that take
    no time. *)
Definition halves : nat -> Q := λ _, 1 # 2.
Definition instant : nat -> N := λ _, 0%N.

(** ** Attempts in time *)

(** The world in which attempt number [i + 1] of a message begins when the
    attempts before it have failed: the world of the call for the first
    one, and for the others the world the failed attempt before left, after
    the backoff wait. *)
Fixpoint attemptWorld (p : Provider) (d : EmailDetails) (w : World) (i : nat) : World :=
  match i with
  | O => w
  | S i' => sleep (backoffTime i) (callProvider p d (attemptWorld p d w i')).2
  end.

(** The world in which attempt number [i + 1] ends. *)
Definition attemptEnd (p : Provider) (d : EmailDetails) (w : World) (i : nat) : World :=
  (callProvider p d (attemptWorld p d w i)).2.

(** A provider that fails every call at once. *)
Definition failingAtOnce : Provider := always (Fault "connection reset"%string) 0 "Provider1"%string.

(** ** Runs of the drain loop, entry by entry *)


(** ** Calls awaited one after the other *)

(** A call [sendEmail(emailId, emailDetails)] made [pause] ms after the call
    before it has returned. *)
Record Submission := mkSubmission {
  pause : N;
  submitted : QueueEntry
}.

Definition later (ms : N) (w : World) : World :=
  mkWorld (clock w + Z.of_N ms)%Z (ncalls w).

(** The calls of [subs], each awaited before the next is made, as in the
    example driver. *)
Fixpoint awaitEach (fuel : nat) (subs : list Submission) (s : EmailService) (w : World)
  : option (Result unit * list Event) :=
  match subs with
  | [] => Some (Val tt s w, [])
  | sub :: rest =>
    match sendEmail fuel (emailId (submitted sub)) (emailDetails (submitted sub)) s
                    (later (pause sub) w) with
    | None => None
    | Some (Val _ s1 w1, evs) => prepend evs (awaitEach fuel rest s1 w1)
    | Some (Exn e s1 w1, evs) => Some (Exn e s1 w1, evs)
    end
  end.



(** ** Calls that overlap

    [sendEmail], [processQueue] and [trySendWithRetries] are [async]
    functions, and nothing in the class keeps two calls apart: a call runs
    up to its next [await] and is suspended there, and the call that is
    resumed next works on the same fields.  A [Runtime] is the one service
    object together with the calls of [sendEmail] made on it so far;
    [resume] runs a suspended call from the [await] it waits at up to its
    next [await] or to its end; [eventLoop] resumes the calls in the order
    in which what they await is settled.

    Here a provider may also throw a value that has no [message] property
    ([undefined] or [null]): [messageless rt n] says so of the [n]-th
    provider call. *)

(** The [await] a call is suspended at, with the local variables it reads
    when it goes on. *)
Inductive Await :=
| AwaitPoll
    (* line 49: await this.sleep(1000) *)
| AwaitProvider (id : string) (d : EmailDetails) (attempt : nat) (r : Response) (bare : bool)
    (* line 74: await provider.sendEmail(emailDetails); the provider answers
       [r], or throws a value without a message when [bare] *)
| AwaitBackoff (id : string) (d : EmailDetails) (attempt : nat)
    (* line 86: await this.sleep(backoffTime) *)
| AwaitStatus (id : string) (st : SendStatus).
    (* line 54: await this.trySendWithRetries(..), which has returned [st] *)

(** A call of [sendEmail]: running, suspended until the instant [due] (the
    calls suspended earlier have the smaller [ticket]), resolved to a value,
    or rejected with an error. *)
Inductive Call :=
| Running
| Suspended (k : Await) (due : Z) (ticket : nat)
| Resolved (ret : Returned)
| Threw (err : string).

Record Runtime := mkRuntime {
  service : EmailService;
  world : World;
  messageless : nat -> bool;
  tickets : nat;
  calls : list Call;                      (* in the order the calls were made *)
  history : list (Z * nat * Event)        (* instant, call, event; chronological *)
}.

Definition setService (s : EmailService) (rt : Runtime) : Runtime :=
  mkRuntime s (world rt) (messageless rt) (tickets rt) (calls rt) (history rt).

Definition setWorld (w : World) (rt : Runtime) : Runtime :=
  mkRuntime (service rt) w (messageless rt) (tickets rt) (calls rt) (history rt).

(** Call [c] leaves the events [evs] at the current instant. *)
Definition emit (c : nat) (evs : list Event) (rt : Runtime) : Runtime :=
  mkRuntime (service rt) (world rt) (messageless rt) (tickets rt) (calls rt)
            (history rt ++ map (λ e, (clock (world rt), c, e)) evs).

(** Call [c] reaches an [await] that is settled at the instant [due]. *)
Definition suspend (c : nat) (k : Await) (due : Z) (rt : Runtime) : Runtime :=
  mkRuntime (service rt) (world rt) (messageless rt) (S (tickets rt))
            (<[c := Suspended k due (tickets rt)]> (calls rt)) (history rt).

(** Call [c] comes to its end. *)
Definition settle (c : nat) (x : Call) (rt : Runtime) : Runtime :=
  mkRuntime (service rt) (world rt) (messageless rt) (tickets rt)
            (<[c := x]> (calls rt)) (history rt).

(** [trySendWithRetries] from the loop test at line 69, with the local
    counter at [attempt], up to the [await] of the provider call at line 74
    or to the [return] at line 93, which settles the [await] at line 54. *)
Definition attemptFrom (c : nat) (id : string) (d : EmailDetails) (attempt : nat)
    (rt : Runtime) : Runtime :=
  let s := service rt in
  if (attempt <? maxRetries s)%nat then
    match providers s !! currentProviderIndex s with
    | None => settle c (Threw typeError) rt        (* provider.name of undefined *)
    | Some provider =>
      let n := ncalls (world rt) in
      let r := respond provider n d in
      suspend c (AwaitProvider id d attempt r (messageless rt n))
        (clock (world rt) + Z.of_N (latency r))
        (emit c [EvCall (currentProviderIndex s) d]
           (setWorld (mkWorld (clock (world rt)) (S n)) rt))
    end
  else suspend c (AwaitStatus id allFailed) (clock (world rt)) rt.

(** [processQueue] from the loop test at line 39 up to the next [await]
    (the poll at line 49, or inside [trySendWithRetries]) or to its end. *)
Definition drainFrom (c : nat) (rt : Runtime) : Runtime :=
  let s := service rt in
  if (length (emailQueue s) =? 0)%nat then settle c (Resolved RetUndefined) rt
  else
    let now := clock (world rt) in
    let s1 := setLedger (recent now (lastSentTimestamps s)) s in
    if (rateLimit s1 <=? length (lastSentTimestamps s1))%nat then
      suspend c AwaitPoll (now + timerDelay 1000)
        (emit c [EvSleep 1000] (setService s1 rt))
    else
      match emailQueue s1 with
      | [] => settle c (Threw typeError) (setService s1 rt)
      | entry :: rest =>
        attemptFrom c (emailId entry) (emailDetails entry) 0
          (emit c [EvShift (emailId entry)] (setService (setQueue rest s1) rt))
      end.

(** What follows the [await] at line 74: the [try] block returns, or the
    [catch] clause runs.  Reading [error.message] of a value that has none
    throws, and nothing catches that. *)
Definition afterProvider (c : nat) (id : string) (d : EmailDetails) (attempt : nat)
    (r : Response) (bare : bool) (rt : Runtime) : Runtime :=
  if bare then settle c (Threw typeError) rt
  else
    match tryBlock (outcome r) with
    | None => suspend c (AwaitStatus id sentOk) (clock (world rt)) rt
    | Some _ =>
      let attempt' := S attempt in
      if (attempt' <? maxRetries (service rt))%nat then
        let t := backoffTime attempt' in
        suspend c (AwaitBackoff id d attempt') (clock (world rt) + timerDelay t)
          (emit c [EvSleep t] rt)
      else
        match switchProvider (service rt) (world rt) with
        | (Val _ s' _, evs) => attemptFrom c id d attempt' (emit c evs (setService s' rt))
        | (Exn e s' _, evs) => settle c (Threw e) (emit c evs (setService s' rt))
        end
    end.

(** Call [c] goes on from the [await] it is suspended at; the clock has
    reached the instant at which that [await] was settled, if it had not
    passed it already. *)
Definition resume (c : nat) (rt : Runtime) : Runtime :=
  match calls rt !! c with
  | Some (Suspended k due _) =>
    let rt := setWorld (mkWorld (Z.max (clock (world rt)) due) (ncalls (world rt))) rt in
    match k with
    | AwaitPoll => drainFrom c rt
    | AwaitProvider id d attempt r bare => afterProvider c id d attempt r bare rt
    | AwaitBackoff id d attempt => attemptFrom c id d attempt rt
    | AwaitStatus id st =>
      let '(s', evs) := recordOutcome id st (service rt) (world rt) in
      drainFrom c (emit c evs (setService s' rt))
    end
  | _ => rt
  end.

(** A new call [sendEmail(id, d)], up to its first [await] or to its end. *)
Definition startSendEmail (id : string) (d : EmailDetails) (rt : Runtime) : Runtime :=
  let c := length (calls rt) in
  let rt := mkRuntime (service rt) (world rt) (messageless rt) (tickets rt)
                      (calls rt ++ [Running]) (history rt) in
  if decide (id ∈ sentEmails (service rt)) then
    settle c (Resolved (RetStatus duplicatePrevented)) rt
  else
    drainFrom c (setService (setQueue (emailQueue (service rt) ++ [mkEntry id d]) (service rt)) rt).

(** A promise that is settled when it is awaited goes on before a timer or
    an answer that arrives at the same instant: the [await] of
    [trySendWithRetries], and that of a provider that answers at once. *)
Definition rank (k : Await) : nat :=
  match k with
  | AwaitStatus _ _ => 0
  | AwaitProvider _ _ _ r _ => if (latency r =? 0)%N then 0 else 1
  | _ => 1
  end.

(** The suspended calls, each with the instant, rank and ticket that order
    them. *)
Definition pending (rt : Runtime) : list (nat * (Z * nat * nat)) :=
  omap (λ x, match x.2 with
             | Suspended k due ticket => Some (x.1, (due, rank k, ticket))
             | _ => None
             end) (imap pair (calls rt)).

Definition sooner (a b : Z * nat * nat) : bool :=
  (a.1.1 <? b.1.1)%Z
  || ((a.1.1 =? b.1.1)%Z
      && ((a.1.2 <? b.1.2)%nat || ((a.1.2 =? b.1.2)%nat && (a.2 <? b.2)%nat))).

(** The call the event loop resumes next, if any is suspended. *)
Definition nextCall (rt : Runtime) : option nat :=
  match pending rt with
  | [] => None
  | x :: l => Some (foldl (λ best y, if sooner y.2 best.2 then y else best) x l).1
  end.

(** The event loop, until no call is suspended.  [fuel] bounds the number
    of calls resumed. *)
Fixpoint eventLoop (fuel : nat) (rt : Runtime) : option Runtime :=
  match nextCall rt with
  | None => Some rt
  | Some c =>
    match fuel with
    | O => None
    | S fuel' => eventLoop fuel' (resume c rt)
    end
  end.

(** A service on which no call has been made yet. *)
Definition boot (s : EmailService) (w : World) (bare : nat -> bool) : Runtime :=
  mkRuntime s w bare 0 [] [].

(** The calls of [reqs] made one right after the other, none of them
    awaited, and then the event loop. *)
Definition overlapping (fuel : nat) (reqs : list QueueEntry) (rt : Runtime) : option Runtime :=
  eventLoop fuel
    (foldl (λ rt e, startSendEmail (emailId e) (emailDetails e) rt) rt reqs).

(** The calls of [reqs] made one after the other, each awaited before the
    next is made. *)
Fixpoint awaiting (fuel : nat) (reqs : list QueueEntry) (rt : Runtime) : option Runtime :=
  match reqs with
  | [] => Some rt
  | e :: rest =>
    match eventLoop fuel (startSendEmail (emailId e) (emailDetails e) rt) with
    | Some rt' => awaiting fuel rest rt'
    | None => None
    end
  end.

(** The events of call [c], and those of all calls, in order. *)
Definition eventsOf (c : nat) (rt : Runtime) : list Event :=
  omap (λ x, if decide (x.1.2 = c) then Some x.2 else None) (history rt).

Definition allEvents (rt : Runtime) : list Event := map snd (history rt).

(** No provider throws a value without a message. *)
Definition errorsOnly : nat -> bool := λ _, false.

(** Every fault of a provider is a thrown [undefined]. *)
Definition undefinedOnly : nat -> bool := λ _, true.


(** A first provider that rejects every call and takes 50 ms over the
    second call of the run, 5 ms over the others. *)
Definition slowOnSecond : Provider :=
  mkProvider "Provider1"
    (λ n _, mkResponse (Rejected "mailbox full") (if (n =? 1)%nat then 50 else 5)).

(** A call that has come to its end. *)
Definition settled (x : Call) : Prop :=
  match x with Resolved _ | Threw _ => True | _ => False end.

(** How a call of [sendEmail] that ended as [r] is left. *)
Definition ended (r : Result Returned) : Call :=
  match r with Val ret _ _ => Resolved ret | Exn err _ _ => Threw err end.

(** The event loop resumes [n] calls, one after the other, from [rt] and
    reaches [rt']. *)
Inductive Resumes : nat -> Runtime -> Runtime -> Prop :=
| ResumesNone rt :
    Resumes 0 rt rt
| ResumesNext n c rt rt' :
    nextCall rt = Some c ->
    Resumes n (resume c rt) rt' ->
    Resumes (S n) rt rt'.

(** From [rt] to [rt'] call [c] has left the events [evs], and no other call
    has left any. *)
Definition Logged (c : nat) (rt rt' : Runtime) (evs : list Event) : Prop :=
  allEvents rt' = allEvents rt ++ evs /\
  eventsOf c rt' = eventsOf c rt ++ evs.

(** ** Calls in any order *)

(** What can happen on a service, in any order: a new call of [sendEmail]
    is made, or a call is resumed (for a call that is not suspended this
    does nothing).  The runs of the event loop are among these. *)
Inductive Moves : Runtime -> Runtime -> Prop :=
| MovesNone rt :
    Moves rt rt
| MovesCall id d rt rt' :
    Moves (startSendEmail id d rt) rt' ->
    Moves rt rt'
| MovesResume c rt rt' :
    Moves (resume c rt) rt' ->
    Moves rt rt'.

(** Counting provider calls pop by pop: a pop opens a new count, a provider
    call adds one to the latest count, which comes first. *)
Definition tally (counts : list nat) (e : Event) : list nat :=
  match e with
  | EvShift _ => 0 :: counts
  | EvCall _ _ =>
    match counts with
    | n :: rest => S n :: rest
    | [] => [1]
    end
  | _ => counts
  end.


(** A call that is suspended inside [trySendWithRetries] has made as many
    provider calls since its latest pop as its counter [attempt] says. *)
Definition Tallied (M : nat) (x : Call) (counts : list nat) : Prop :=
  match x with
  | Suspended (AwaitProvider _ _ a _ _) _ _ => exists rest, counts = S a :: rest
  | Suspended (AwaitBackoff _ _ a) _ _ => a < M /\ exists rest, counts = a :: rest
  | _ => True
  end.


(** What one step of call [c] does to the runtime: it leaves the events
    [evs] and the call as [x], and keeps [maxRetries]. *)
Definition Effect (c : nat) (rt rt' : Runtime) (evs : list Event) (x : Call) : Prop :=
  maxRetries (service rt') = maxRetries (service rt) /\
  (forall c', eventsOf c' rt' = eventsOf c' rt ++ (if decide (c' = c) then evs else [])) /\
  calls rt' = <[c := x]> (calls rt).



(** The configuration of the service [s0] is kept, and the cursor is a
    valid index. *)
Definition Configured (s0 : EmailService) (rt : Runtime) : Prop :=
  providers (service rt) = providers s0 /\
  maxRetries (service rt) = maxRetries s0 /\
  rateLimit (service rt) = rateLimit s0 /\
  currentProviderIndex (service rt) < length (providers s0).

(** * Proofs *)

(** ** The retry loop *)

Lemma backoffTime_pos a : (0 < backoffTime a)%Z.
Proof. unfold backoffTime. assert (0 < 2 ^ Z.of_nat a)%Z by (apply Z.pow_pos_nonneg; lia). lia. Qed.

Lemma backoffTime_succ a : backoffTime (S a) = (2 * backoffTime a)%Z.
Proof.
  unfold backoffTime. rewrite Nat2Z.inj_succ, Z.pow_succ_r by lia. lia.
Qed.

Lemma timerDelay_pos ms : (0 < timerDelay ms)%Z.
Proof. unfold timerDelay. destruct (_ || _)%Z eqn:E; [lia|]. apply orb_false_iff in E. lia. Qed.

Lemma timerDelay_in_range ms : (1 <= ms <= maxTimerDelay)%Z -> timerDelay ms = ms.
Proof.
  intros H. unfold timerDelay.
  destruct (ms <? 1)%Z eqn:E1; [lia|]. destruct (maxTimerDelay <? ms)%Z eqn:E2; [lia|done].
Qed.

Lemma clock_sleep ms w : clock (sleep ms w) = (clock w + timerDelay ms)%Z.
Proof. reflexivity. Qed.

Lemma backoffTime_le a b : a ≤ b -> (backoffTime a <= backoffTime b)%Z.
Proof.
  intros H. unfold backoffTime.
  assert (2 ^ Z.of_nat a <= 2 ^ Z.of_nat b)%Z by (apply Z.pow_le_mono_r; lia). lia.
Qed.

(** Up to attempt 24 the backoff is within the range of the timer; from
    attempt 25 on it is above it, and the timer is set to 1 ms. *)
Lemma backoffTime_timer i : i ≤ 24 -> timerDelay (backoffTime i) = backoffTime i.
Proof.
  intros Hi. apply timerDelay_in_range.
  pose proof (backoffTime_pos i). pose proof (backoffTime_le i 24 Hi) as H24.
  assert (E : backoffTime 24 = 1677721600%Z) by (vm_compute; reflexivity).
  unfold maxTimerDelay. lia.
Qed.

Lemma backoffTime_clamped i : 25 ≤ i -> timerDelay (backoffTime i) = 1%Z.
Proof.
  intros Hi. pose proof (backoffTime_le 25 i Hi) as H.
  assert (E : backoffTime 25 = 3355443200%Z) by (vm_compute; reflexivity).
  unfold timerDelay, maxTimerDelay.
  destruct (backoffTime i <? 1)%Z; [done|]. simpl.
  destruct (2147483647 <? backoffTime i)%Z eqn:E'; [done|]. lia.
Qed.

Lemma tryBlock_None o : tryBlock o = None <-> o = Delivered.
Proof. destruct o; simpl; split; congruence. Qed.

Lemma switchProvider_inbounds s w :
  currentProviderIndex s < length (providers s) ->
  switchProvider s w = (Val tt (setCursor (nextIndex s) s) w, [EvSwitch (nextIndex s)]).
Proof.
  intros Hlt. unfold switchProvider. fold (nextIndex s).
  assert (Hn : nextIndex s < length (providers s)).
  { unfold nextIndex. apply Nat.mod_upper_bound. lia. }
  simpl. destruct (providers s !! nextIndex s) eqn:E; [reflexivity|].
  apply lookup_ge_None in E. lia.
Qed.

Lemma retryLoop_run fuel : forall a id d s w r evs,
  retryLoop fuel a id d s w = Some (r, evs) -> RetryRun d s w a r evs.
Proof.
  induction fuel as [|fuel IH]; intros a id d s w r evs H; simpl in H; [discriminate|].
  destruct (a <? maxRetries s) eqn:Ha.
  2:{ apply Nat.ltb_ge in Ha. inversion H; subst. by constructor. }
  apply Nat.ltb_lt in Ha.
  destruct (providers s !! currentProviderIndex s) as [p|] eqn:Hp.
  2:{ inversion H; subst. by constructor. }
  assert (Hj : currentProviderIndex s < length (providers s)) by (eapply lookup_lt_Some; eauto).
  unfold callProvider in H.
  set (resp := respond p (ncalls w) d) in *.
  destruct (tryBlock (outcome resp)) as [msg|] eqn:Htry.
  2:{ inversion H; subst. apply tryBlock_None in Htry.
      apply (RetrySent d s w a p 0); simpl; rewrite ?Nat.add_0_r; try done; try lia. }
  assert (Hfail : failed resp).
  { unfold failed. intros E. apply tryBlock_None in E. congruence. }
  destruct (S a <? maxRetries s) eqn:Ha'.
  - apply Nat.ltb_lt in Ha'.
    destruct (retryLoop fuel (S a) id d s _) as [[r' evs']|] eqn:Hrec; simpl in H; [|discriminate].
    inversion H; subst; clear H.
    apply IH in Hrec.
    pose proof (timerDelay_pos (backoffTime (S a))) as Hb.
    inversion Hrec; subst; simpl in *; try lia; try congruence.
    + match goal with Hq : _ !! _ = Some p0 |- _ => rewrite Hp in Hq; inversion Hq; subst p0 end.
      apply (RetrySent d s w a p (S k) w'); try done; try lia.
      * intros i Hi. destruct i as [|i]; [rewrite Nat.add_0_r; exact Hfail|].
        replace (ncalls w + S i) with (S (ncalls w + i)) by lia.
        match goal with Hf : forall _, _ -> failed _ |- _ => apply Hf end. lia.
      * replace (ncalls w + S k) with (S (ncalls w + k)) by lia. done.
    + match goal with Hq : _ !! _ = Some p0 |- _ => rewrite Hp in Hq; inversion Hq; subst p0 end.
      apply (RetryExhausted d s w a p (S k) w'); try done; try lia.
      intros i Hi. destruct i as [|i]; [rewrite Nat.add_0_r; exact Hfail|].
      replace (ncalls w + S i) with (S (ncalls w + i)) by lia.
      match goal with Hf : forall _, _ -> failed _ |- _ => apply Hf end. lia.
  - apply Nat.ltb_ge in Ha'.
    rewrite switchProvider_inbounds in H by done.
    destruct (retryLoop fuel (S a) id d _ _) as [[r' evs']|] eqn:Hrec; simpl in H; [|discriminate].
    inversion H; subst; clear H.
    apply IH in Hrec.
    inversion Hrec; subst; simpl in *; try lia.
    apply (RetryExhausted d s w a p 0); simpl; try done; try lia.
    intros i Hi. assert (i = 0) by lia. subst. rewrite Nat.add_0_r. exact Hfail.
Qed.

Lemma retryLoop_total fuel : forall a id d s w,
  maxRetries s - a < fuel -> is_Some (retryLoop fuel a id d s w).
Proof.
  induction fuel as [|fuel IH]; intros a id d s w Hf; [lia|]. simpl.
  destruct (a <? maxRetries s) eqn:Ha; [|eauto].
  apply Nat.ltb_lt in Ha.
  destruct (providers s !! currentProviderIndex s) as [p|] eqn:Hp; [|eauto].
  unfold callProvider.
  destruct (tryBlock _); [|eauto].
  destruct (S a <? maxRetries s) eqn:Ha'.
  - edestruct (IH (S a) id d s) as [[r evs] ->]; [lia|]. simpl. eauto.
  - rewrite switchProvider_inbounds by (eapply lookup_lt_Some; eauto).
    edestruct (IH (S a) id d (setCursor (nextIndex s) s)) as [[r evs] ->];
      [simpl; lia|]. simpl. eauto.
Qed.

Lemma trySendWithRetries_run id d s w :
  exists r evs, trySendWithRetries id d s w = Some (r, evs) /\ RetryRun d s w 0 r evs.
Proof.
  destruct (retryLoop_total (S (maxRetries s)) 0 id d s w) as [[r evs] H]; [lia|].
  exists r, evs. split; [exact H|]. eapply retryLoop_run; eauto.
Qed.

Lemma calledProviders_app l1 l2 :
  calledProviders (l1 ++ l2) = calledProviders l1 ++ calledProviders l2.
Proof. apply omap_app. Qed.

Lemma waits_app l1 l2 : waits (l1 ++ l2) = waits l1 ++ waits l2.
Proof. apply omap_app. Qed.

Lemma switches_app l1 l2 : switches (l1 ++ l2) = switches l1 ++ switches l2.
Proof. apply omap_app. Qed.

Lemma sentTimes_app l1 l2 : sentTimes (l1 ++ l2) = sentTimes l1 ++ sentTimes l2.
Proof. apply omap_app. Qed.

Lemma sentIds_app l1 l2 : sentIds (l1 ++ l2) = sentIds l1 ++ sentIds l2.
Proof. apply omap_app. Qed.

Lemma statusWrites_app l1 l2 : statusWrites (l1 ++ l2) = statusWrites l1 ++ statusWrites l2.
Proof. apply omap_app. Qed.

Lemma successIds_app l1 l2 : successIds (l1 ++ l2) = successIds l1 ++ successIds l2.
Proof. apply omap_app. Qed.

Lemma milestones_app l1 l2 : milestones (l1 ++ l2) = milestones l1 ++ milestones l2.
Proof. apply omap_app. Qed.

Lemma failedAttempts_calls idx d k : forall a,
  calledProviders (failedAttempts idx d a k) = replicate k idx.
Proof. induction k as [|k IH]; intros a; simpl; [done|]. by rewrite <- (IH (S a)). Qed.

Lemma failedAttempts_waits idx d k : forall a,
  waits (failedAttempts idx d a k) = map backoffTime (seq (S a) k).
Proof. induction k as [|k IH]; intros a; simpl; [done|]. by rewrite <- (IH (S a)). Qed.

Lemma failedAttempts_switches idx d k : forall a, switches (failedAttempts idx d a k) = [].
Proof. induction k as [|k IH]; intros a; simpl; [done|]. apply IH. Qed.

Lemma failedAttempts_sentTimes idx d k : forall a, sentTimes (failedAttempts idx d a k) = [].
Proof. induction k as [|k IH]; intros a; simpl; [done|]. apply IH. Qed.

Lemma failedAttempts_sentIds idx d k : forall a, sentIds (failedAttempts idx d a k) = [].
Proof. induction k as [|k IH]; intros a; simpl; [done|]. apply IH. Qed.

Lemma failedAttempts_statusWrites idx d k : forall a,
  statusWrites (failedAttempts idx d a k) = [].
Proof. induction k as [|k IH]; intros a; simpl; [done|]. apply IH. Qed.

Lemma failedAttempts_successIds idx d k : forall a,
  successIds (failedAttempts idx d a k) = [].
Proof. induction k as [|k IH]; intros a; simpl; [done|]. apply IH. Qed.

Lemma failedAttempts_milestones idx d k : forall a,
  milestones (failedAttempts idx d a k) = [].
Proof. induction k as [|k IH]; intros a; simpl; [done|]. apply IH. Qed.

(** The events of a retry run are provider calls, backoff waits and at most
    one cursor switch; nothing is popped, sent or recorded. *)
Lemma RetryRun_quiet d s w a r evs :
  RetryRun d s w a r evs ->
  sentTimes evs = [] /\ sentIds evs = [] /\ statusWrites evs = [] /\
  successIds evs = [] /\ milestones evs = [].
Proof.
  intros H. inversion H; subst; simpl;
    rewrite ?sentTimes_app, ?sentIds_app, ?statusWrites_app, ?successIds_app,
      ?milestones_app, ?failedAttempts_sentTimes, ?failedAttempts_sentIds,
      ?failedAttempts_statusWrites, ?failedAttempts_successIds,
      ?failedAttempts_milestones; done.
Qed.

(** A retry run touches the cursor only, and the clock never goes back. *)
Lemma RetryRun_frame d s w a r evs :
  RetryRun d s w a r evs ->
  resultService r = setCursor (currentProviderIndex (resultService r)) s /\
  (clock w ≤ clock (resultWorld r))%Z /\
  (currentProviderIndex (resultService r) = currentProviderIndex s \/
   currentProviderIndex (resultService r) = nextIndex s /\
   currentProviderIndex s < length (providers s)).
Proof.
  intros H. inversion H; subst; simpl; (split; [by destruct s|]); split; try lia; auto.
  right. split; [done|]. eapply lookup_lt_Some; eauto.
Qed.

(** ** The drain loop *)

Lemma recordOutcome_service id st s w :
  (recordOutcome id st s w).1 =
  mkService (providers s) (currentProviderIndex s) (maxRetries s) (rateLimit s)
    (<[id := st]> (status s))
    (if success st then {[id]} ∪ sentEmails s else sentEmails s)
    (emailQueue s)
    (if success st then lastSentTimestamps s ++ [clock w] else lastSentTimestamps s).
Proof. unfold recordOutcome. destruct (success st); reflexivity. Qed.

Lemma recordOutcome_events id st s w :
  (recordOutcome id st s w).2 =
  (if success st then [EvSent id (clock w)] else []) ++ [EvStatus id st].
Proof. unfold recordOutcome. destruct (success st); reflexivity. Qed.

Lemma drainStep_empty s w :
  emailQueue s = [] -> drainStep s w = Some (Done s w, []).
Proof. intros H. unfold drainStep. by rewrite H. Qed.

Lemma drainStep_limited s w e rest :
  emailQueue s = e :: rest ->
  rateLimit s ≤ length (recent (clock w) (lastSentTimestamps s)) ->
  drainStep s w =
  Some (Again (setLedger (recent (clock w) (lastSentTimestamps s)) s) (sleep 1000 w),
        [EvSleep 1000]).
Proof.
  intros Hq Hl. unfold drainStep. rewrite Hq.
  cbn -[recent trySendWithRetries recordOutcome].
  apply Nat.leb_le in Hl. by rewrite Hl.
Qed.

Lemma drainStep_admitted s w e rest :
  emailQueue s = e :: rest ->
  length (recent (clock w) (lastSentTimestamps s)) < rateLimit s ->
  exists r evs,
    trySendWithRetries (emailId e) (emailDetails e) (admitted rest s w) w = Some (r, evs) /\
    RetryRun (emailDetails e) (admitted rest s w) w 0 r evs /\
    drainStep s w =
    Some match r with
         | Val st s3 w3 =>
           (Again (recordOutcome (emailId e) st s3 w3).1 w3,
            EvShift (emailId e) :: evs ++ (recordOutcome (emailId e) st s3 w3).2)
         | Exn err s3 w3 => (Raised err s3 w3, EvShift (emailId e) :: evs)
         end.
Proof.
  intros Hq Hl.
  destruct (trySendWithRetries_run (emailId e) (emailDetails e) (admitted rest s w) w)
    as (r & evs & Hrun & Hshape).
  exists r, evs. split; [done|]. split; [done|].
  unfold drainStep. rewrite Hq.
  cbn -[recent trySendWithRetries recordOutcome].
  apply Nat.leb_gt in Hl. rewrite Hl. rewrite Hq.
  change (setQueue rest (setLedger (recent (clock w) (lastSentTimestamps s)) s))
    with (admitted rest s w).
  rewrite Hrun.
  destruct r as [st s3 w3|err s3 w3]; [|done].
  by destruct (recordOutcome (emailId e) st s3 w3).
Qed.

Lemma processQueue_Drains fuel : forall s w r evs,
  processQueue fuel s w = Some (r, evs) -> Drains s w r evs.
Proof.
  induction fuel as [|fuel IH]; intros s w r evs H; simpl in H; [discriminate|].
  destruct (drainStep s w) as [[[s' w'|s' w'|err s' w'] evs1]|] eqn:Hstep; try discriminate.
  - inversion H; subst. by apply DrainsDone.
  - destruct (processQueue fuel s' w') as [[r' evs']|] eqn:Hrec; simpl in H; [|discriminate].
    inversion H; subst. eapply DrainsAgain; eauto.
  - inversion H; subst. by apply DrainsRaised.
Qed.

Lemma Drains_processQueue s w r evs :
  Drains s w r evs ->
  exists fuel0, forall fuel, fuel0 ≤ fuel -> processQueue fuel s w = Some (r, evs).
Proof.
  induction 1 as [s w s' w' evs H|s w err s' w' evs H|s w s1 w1 evs1 r evs H _ [f IH]].
  - exists 1. intros [|fuel] Hf; [lia|]. simpl. by rewrite H.
  - exists 1. intros [|fuel] Hf; [lia|]. simpl. by rewrite H.
  - exists (S f). intros [|fuel] Hf; [lia|]. simpl. rewrite H.
    rewrite IH by lia. done.
Qed.

Lemma Drains_functional s w r evs :
  Drains s w r evs -> forall r' evs', Drains s w r' evs' -> r = r' /\ evs = evs'.
Proof.
  induction 1 as [s w s' w' evs H|s w err s' w' evs H|s w s1 w1 evs1 r evs H _ IH];
    intros r' evs' H'; inversion H'; subst;
    match goal with H2 : drainStep _ _ = _ |- _ => rewrite H in H2; inversion H2; subst end;
    try done.
  edestruct IH as [-> ->]; eauto.
Qed.

(** Whatever the fuel, a run of [processQueue] that ends gives the result of
    the relation. *)
Lemma processQueue_functional fuel fuel' s w x y :
  processQueue fuel s w = Some x -> processQueue fuel' s w = Some y -> x = y.
Proof.
  destruct x as [r evs], y as [r' evs']. intros H H'.
  apply processQueue_Drains in H, H'.
  by destruct (Drains_functional _ _ _ _ H _ _ H') as [-> ->].
Qed.

Lemma recent_Forall now l P : Forall P l -> Forall P (recent now l).
Proof.
  intros H. unfold recent. apply Forall_forall. intros t Ht.
  apply list_elem_of_filter in Ht as [_ Ht]. rewrite Forall_forall in H. auto.
Qed.

Lemma recent_stale now l :
  Forall (λ t, (t + 60000 ≤ now)%Z) l -> recent now l = [].
Proof.
  induction 1 as [|t l Ht _ IH]; [done|].
  unfold recent in *. rewrite filter_cons_False by lia. exact IH.
Qed.

(** An admitted iteration that does not throw pops the head, keeps a valid
    cursor and records no instant from the future. *)
Lemma drainStep_admitted_wf s w e rest s' w' evs :
  emailQueue s = e :: rest ->
  length (recent (clock w) (lastSentTimestamps s)) < rateLimit s ->
  WellFormed s w ->
  drainStep s w = Some (Again s' w', evs) ->
  emailQueue s' = rest /\ WellFormed s' w'.
Proof.
  intros Hq Hl (Hc & Hr & Ht) Hstep.
  destruct (drainStep_admitted s w e rest Hq Hl) as (r & evs0 & _ & Hrun & Hd).
  rewrite Hd in Hstep. destruct r as [st s3 w3|err s3 w3]; [|done].
  inversion Hstep; subst; clear Hstep. rewrite recordOutcome_service.
  apply RetryRun_frame in Hrun as (Hs3 & Hclock & Hcur). simpl in *.
  rewrite Hs3. simpl. split; [done|]. unfold WellFormed. simpl.
  split; [|split; [done|]].
  - destruct Hcur as [->|[-> _]]; [done|]. unfold nextIndex. simpl.
    apply Nat.mod_upper_bound. lia.
  - assert (Forall (λ t, (t ≤ clock w')%Z) (recent (clock w) (lastSentTimestamps s))).
    { apply recent_Forall. eapply Forall_impl; [exact Ht|]. simpl. intros; lia. }
    destruct (success st); [|done]. apply Forall_app. split; [done|].
    apply Forall_singleton. lia.
Qed.

(** Under a rate limit of at least one, every run of the drain loop from a
    well-formed state comes to an end with the queue empty. *)
Lemma Drains_terminates n : forall k s w,
  length (emailQueue s) = n ->
  WellFormed s w ->
  Forall (λ t, (t + 60000 ≤ clock w + 1000 * Z.of_nat k)%Z) (lastSentTimestamps s) ->
  exists s' w' evs, Drains s w (Val tt s' w') evs.
Proof.
  induction n as [|n IHn]; intros k s w Hn Hwf Hk.
  { exists s, w, []. apply DrainsDone, drainStep_empty. by apply nil_length_inv. }
  revert s w Hn Hwf Hk. induction k as [|k IHk]; intros s w Hn Hwf Hk.
  all: destruct (emailQueue s) as [|e rest] eqn:Hq; [simpl in Hn; lia|].
  all: destruct (decide (length (recent (clock w) (lastSentTimestamps s)) < rateLimit s))
         as [Hl|Hl].
  1,3: destruct (drainStep_admitted s w e rest Hq Hl) as (r & evs0 & _ & Hrun & Hd);
       destruct r as [st s3 w3|err s3 w3];
       [|inversion Hrun; subst; destruct Hwf as (Hc & _);
         match goal with Hnone : _ !! _ = None |- _ =>
           apply lookup_ge_None in Hnone; simpl in Hnone; lia end];
       destruct (drainStep_admitted_wf _ _ _ _ _ _ _ Hq Hl Hwf Hd) as [Hq' Hwf'];
       destruct (IHn 60 (recordOutcome (emailId e) st s3 w3).1 w3)
         as (s' & w' & evs & HD);
       [rewrite Hq'; simpl in Hn; lia | done
       | destruct Hwf' as (_ & _ & Ht); eapply Forall_impl; [exact Ht|]; simpl; intros; lia
       | exists s', w'; eexists; eapply DrainsAgain; eauto].
  - exfalso. apply Hl. rewrite recent_stale; [destruct Hwf as (_ & ? & _); simpl; lia|].
    eapply Forall_impl; [exact Hk|]. simpl. intros; lia.
  - assert (Hlim : rateLimit s ≤ length (recent (clock w) (lastSentTimestamps s))) by lia.
    pose proof (drainStep_limited s w e rest Hq Hlim) as Hd.
    destruct (IHk (setLedger (recent (clock w) (lastSentTimestamps s)) s) (sleep 1000 w))
      as (s' & w' & evs & HD).
    + simpl. by rewrite Hq.
    + destruct Hwf as (Hc & Hr & Ht). unfold WellFormed. simpl.
      split; [done|]. split; [done|]. apply recent_Forall.
      eapply Forall_impl; [exact Ht|]. simpl. poll_delay. intros; lia.
    + simpl. poll_delay. apply recent_Forall. eapply Forall_impl; [exact Hk|]. simpl. intros; lia.
    + exists s', w'. eexists. eapply DrainsAgain; eauto.
Qed.

(** ** Idempotency *)

(** C1. A call of [sendEmail] for an id that is in [sentEmails] returns the
    duplicate-prevented status at once, whatever the fuel: it emits no event
    (so no provider is called and nothing is popped or recorded) and leaves
    the service (queue, status table, [sentEmails], ledger) and the world
    (clock, number of provider calls) as they were. *)
Theorem duplicate_prevented fuel id d s w :
  id ∈ sentEmails s ->
  sendEmail fuel id d s w = Some (Val (RetStatus duplicatePrevented) s w, []).
Proof.
  intros Hin. unfold sendEmail. destruct (decide (id ∈ sentEmails s)); [reflexivity|].
  contradiction.
Qed.

(** The first submission succeeds and marks the id; the second one is then
    answered without any fuel. *)
Lemma duplicate_prevented_witness :
  sendEmail 2 "dup" welcome (defaultService [reliable]) epoch
    = Some (Val RetUndefined afterDup afterDupWorld,
            [EvShift "dup"; EvCall 0 welcome; EvSent "dup" 1700000000007;
             EvStatus "dup" sentOk]) /\
  "dup"%string ∈ sentEmails afterDup /\
  sendEmail 0 "dup" update afterDup afterDupWorld
    = Some (Val (RetStatus duplicatePrevented) afterDup afterDupWorld, []).
Proof.
  assert (H : "dup"%string ∈ sentEmails afterDup) by (simpl; set_solver).
  split; [vm_compute; reflexivity|].
  split; [exact H|].
  apply (duplicate_prevented 0 "dup" update afterDup afterDupWorld H).
Defined.

(** ** Calls in any order: the counters and the statuses *)

Lemma eventsOf_stamped (t : Z) c evs :
  omap (λ x : Z * nat * Event, if decide (x.1.2 = c) then Some x.2 else None)
       (map (λ e, (t, c, e)) evs) = evs.
Proof.
  induction evs as [|e evs IH]; [done|]. simpl.
  destruct (decide (c = c)); [|done]. simpl. by f_equal.
Qed.

Lemma lookup_last {A} (pre : list A) x : (pre ++ [x]) !! length pre = Some x.
Proof. rewrite lookup_app_r by lia. by rewrite Nat.sub_diag. Qed.



Lemma Effect_refl c rt x : calls rt !! c = Some x -> Effect c rt rt [] x.
Proof.
  intros H. split; [done|]. split.
  - intros c'. destruct (decide (c' = c)); by rewrite app_nil_r.
  - by rewrite list_insert_id.
Qed.


Lemma Effect_lookup c rt rt' evs x x0 :
  Effect c rt rt' evs x -> calls rt !! c = Some x0 -> calls rt' !! c = Some x.
Proof.
  intros (_ & _ & ->) H. apply list_lookup_insert_eq. by eapply lookup_lt_Some.
Qed.






Lemma Tallied_plain M x t :
  match x with
  | Suspended (AwaitProvider _ _ _ _ _) _ _ | Suspended (AwaitBackoff _ _ _) _ _ => False
  | _ => True
  end -> Tallied M x t.
Proof. destruct x as [|[| | |] ? ?| |]; simpl; tauto. Qed.


Lemma tally_quiet t evs :
  calledProviders evs = [] ->
  Forall (λ e, match e with EvShift _ => False | _ => True end) evs ->
  foldl tally t evs = t.
Proof.
  revert t. induction evs as [|e evs IH]; intros t Hc Hs; [done|].
  inversion Hs; subst. destruct e; simpl in *; try done; by apply IH.
Qed.










Lemma eventLoop_moves fuel : forall rt rt', eventLoop fuel rt = Some rt' -> Moves rt rt'.
Proof.
  induction fuel as [|fuel IH]; intros rt rt' H; simpl in H;
    destruct (nextCall rt) as [c|]; try discriminate; try (inversion H; subst; constructor).
  eapply MovesResume. by apply IH.
Qed.







Lemma Moves_trans rt1 rt2 rt3 : Moves rt1 rt2 -> Moves rt2 rt3 -> Moves rt1 rt3.
Proof.
  induction 1 as [rt|id d rt rt' _ IH|c rt rt' _ IH]; intros H; [done|..].
  - eapply MovesCall. by apply IH.
  - eapply MovesResume. by apply IH.
Qed.

Lemma overlapping_moves fuel reqs : forall rt rt',
  overlapping fuel reqs rt = Some rt' -> Moves rt rt'.
Proof.
  unfold overlapping. induction reqs as [|e reqs IH]; intros rt rt' H; simpl in H.
  - by eapply eventLoop_moves.
  - eapply MovesCall. by apply IH.
Qed.

(** ** Retry bound and backoff *)






Lemma failedAttempts_snoc idx d k : forall a,
  failedAttempts idx d a (S k)
  = failedAttempts idx d a k ++ [EvCall idx d; EvSleep (backoffTime (S (a + k)))].
Proof.
  induction k as [|k IH]; intros a.
  - simpl. by rewrite Nat.add_0_r.
  - cbn [failedAttempts]. cbn [failedAttempts] in IH. rewrite (IH (S a)).
    simpl. by replace (a + S k) with (S (a + k)) by lia.
Qed.

Lemma prepend_prepend {A} l1 l2 (r : option (Result A * list Event)) :
  prepend l1 (prepend l2 r) = prepend (l1 ++ l2) r.
Proof. destruct r as [[x evs]|]; simpl; [by rewrite app_assoc|done]. Qed.

Lemma attemptWorld_ncalls p d w i : ncalls (attemptWorld p d w i) = ncalls w + i.
Proof. induction i as [|i IH]; simpl; [lia|]. rewrite IH. lia. Qed.

(** The retry loop after [k] failed attempts that each left further
    attempts: it has made the [k] calls and slept after each, and goes on
    from attempt counter [k] in the world [attemptWorld p d w k]. *)
Lemma retryLoop_after_failures id d s w p k :
  providers s !! currentProviderIndex s = Some p ->
  k < maxRetries s ->
  (forall i, i < k -> failed (respond p (ncalls w + i) d)) ->
  trySendWithRetries id d s w
  = prepend (failedAttempts (currentProviderIndex s) d 0 k)
      (retryLoop (S (maxRetries s) - k) k id d s (attemptWorld p d w k)).
Proof.
  intros Hp. induction k as [|k IH]; intros Hk Hfail.
  - unfold trySendWithRetries. rewrite Nat.sub_0_r. cbn [failedAttempts attemptWorld].
    by destruct (retryLoop (S (maxRetries s)) 0 id d s w) as [[]|].
  - rewrite IH by (lia || (intros; apply Hfail; lia)).
    replace (S (maxRetries s) - k) with (S (S (maxRetries s) - S k)) by lia.
    cbn [retryLoop].
    destruct (k <? maxRetries s) eqn:E; [|apply Nat.ltb_ge in E; lia].
    rewrite Hp. unfold callProvider. rewrite attemptWorld_ncalls.
    specialize (Hfail k (Nat.lt_succ_diag_r k)).
    destruct (tryBlock (outcome (respond p (ncalls w + k) d))) as [msg|] eqn:Htry.
    2:{ apply tryBlock_None in Htry. by destruct Hfail. }
    destruct (S k <? maxRetries s) eqn:E'; [|apply Nat.ltb_ge in E'; lia].
    rewrite prepend_prepend, failedAttempts_snoc. simpl.
    unfold callProvider. by rewrite attemptWorld_ncalls.
Qed.

Lemma attemptEnd_clock p d w i :
  clock (attemptEnd p d w i)
  = (clock (attemptWorld p d w i) + Z.of_N (latency (respond p (ncalls w + i) d)))%Z.
Proof. unfold attemptEnd, callProvider. simpl. by rewrite attemptWorld_ncalls. Qed.

Lemma attemptWorld_clock p d w i :
  clock (attemptWorld p d w (S i))
  = (clock (attemptEnd p d w i)
     + (if decide (S i ≤ 24)%nat then 2 ^ Z.of_nat (S i) * 100 else 1))%Z.
Proof.
  cbn [attemptWorld]. fold (attemptEnd p d w i). rewrite clock_sleep. f_equal.
  destruct (decide (S i ≤ 24)) as [Hle|Hgt].
  - by rewrite backoffTime_timer.
  - rewrite backoffTime_clamped; [done|lia].
Qed.

(** C4. Let the first [k] attempts of a message fail, each with further
    attempts remaining.  Then [trySendWithRetries] has made those [k] calls,
    each followed by a call of [sleep] (with [2^i * 100] for the [i]-th of
    them, while the double is that integer: up to the 1017th), and goes on
    with attempt [k + 1] in the world [attemptWorld p d w k].  In that world
    time has passed as follows: every attempt ends when the provider call
    returns, and attempt [i + 1] begins [2^i * 100] ms after attempt [i]
    ended as long as [i] is at most 24, and 1 ms after it from [i = 25] on,
    where the delay is above the range of the timer.  Up to attempt 24 each
    wait is longer than the one before.  If attempt [k + 1] delivers, or
    fails as the last attempt allowed, [trySendWithRetries] returns in the
    world in which that attempt ended: no wait follows it. *)
Theorem backoff_waits id d s w p k :
  providers s !! currentProviderIndex s = Some p ->
  k < maxRetries s ->
  (forall i, i < k -> failed (respond p (ncalls w + i) d)) ->
  trySendWithRetries id d s w
    = prepend (failedAttempts (currentProviderIndex s) d 0 k)
        (retryLoop (S (maxRetries s) - k) k id d s (attemptWorld p d w k)) /\
  (k ≤ 1017 ->
     waits (failedAttempts (currentProviderIndex s) d 0 k)
       = map (λ i, (2 ^ Z.of_nat i * 100)%Z) (seq 1 k)) /\
  (forall i, i < k ->
     clock (attemptEnd p d w i)
       = (clock (attemptWorld p d w i) + Z.of_N (latency (respond p (ncalls w + i) d)))%Z /\
     clock (attemptWorld p d w (S i))
       = (clock (attemptEnd p d w i)
          + (if decide (S i ≤ 24)%nat then 2 ^ Z.of_nat (S i) * 100 else 1))%Z) /\
  (forall i, S i < k -> S (S i) ≤ 24 ->
     (clock (attemptWorld p d w (S i)) - clock (attemptEnd p d w i)
      < clock (attemptWorld p d w (S (S i))) - clock (attemptEnd p d w (S i)))%Z) /\
  (outcome (respond p (ncalls w + k) d) = Delivered ->
     trySendWithRetries id d s w
     = Some (Val sentOk s (attemptEnd p d w k),
             failedAttempts (currentProviderIndex s) d 0 k
               ++ [EvCall (currentProviderIndex s) d])) /\
  (failed (respond p (ncalls w + k) d) -> S k = maxRetries s ->
     trySendWithRetries id d s w
     = Some (Val allFailed (setCursor (nextIndex s) s) (attemptEnd p d w k),
             failedAttempts (currentProviderIndex s) d 0 k
               ++ [EvCall (currentProviderIndex s) d; EvSwitch (nextIndex s)])).
Proof.
  intros Hp Hk Hfail.
  pose proof (retryLoop_after_failures id d s w p k Hp Hk Hfail) as Hrun.
  split; [exact Hrun|]. split; [intros _; apply failedAttempts_waits|].
  split; [intros i _; split; [apply attemptEnd_clock|apply attemptWorld_clock]|].
  split.
  { intros i _ Hi. rewrite !attemptWorld_clock.
    destruct (decide (S i ≤ 24)); [|lia]. destruct (decide (S (S i) ≤ 24)); [|lia].
    rewrite (Nat2Z.inj_succ (S i)), Z.pow_succ_r by lia.
    assert (0 < 2 ^ Z.of_nat (S i))%Z by (apply Z.pow_pos_nonneg; lia). lia. }
  assert (Hfuel : S (maxRetries s) - k = S (maxRetries s - k)) by lia.
  assert (Hlt : (k <? maxRetries s) = true) by (apply Nat.ltb_lt; lia).
  split.
  - intros Hok. rewrite Hrun, Hfuel. cbn [retryLoop]. rewrite Hlt, Hp.
    unfold attemptEnd, callProvider. rewrite attemptWorld_ncalls, Hok. done.
  - intros Hfailed Hlast. rewrite Hrun, Hfuel. cbn [retryLoop]. rewrite Hlt, Hp.
    unfold attemptEnd, callProvider. rewrite attemptWorld_ncalls.
    destruct (tryBlock (outcome (respond p (ncalls w + k) d))) as [msg|] eqn:Htry.
    2:{ apply tryBlock_None in Htry. by destruct Hfailed. }
    destruct (S k <? maxRetries s) eqn:E'; [apply Nat.ltb_lt in E'; lia|].
    rewrite switchProvider_inbounds by (eapply lookup_lt_Some; eauto).
    replace (maxRetries s - k) with 1 by lia. cbn [retryLoop].
    change (maxRetries (setCursor (nextIndex s) s)) with (maxRetries s).
    rewrite E'. simpl. done.
Qed.

Lemma backoff_waits_witness :
  trySendWithRetries "m1" welcome (defaultService [faulting; backup]) epoch
    = Some (Val allFailed (setCursor 1 (defaultService [faulting; backup]))
              (attemptEnd faulting welcome epoch 2),
            failedAttempts 0 welcome 0 2 ++ [EvCall 0 welcome; EvSwitch 1]) /\
  waits (failedAttempts 0 welcome 0 2) = [200; 400]%Z /\
  clock (attemptEnd faulting welcome epoch 0) = 1700000000005%Z /\
  clock (attemptWorld faulting welcome epoch 1) = 1700000000205%Z /\
  clock (attemptEnd faulting welcome epoch 1) = 1700000000210%Z /\
  clock (attemptWorld faulting welcome epoch 2) = 1700000000610%Z /\
  clock (attemptEnd faulting welcome epoch 2) = 1700000000615%Z.
Proof.
  destruct (backoff_waits "m1" welcome (defaultService [faulting; backup]) epoch faulting 2)
    as (_ & Hwaits & Hclock & _ & _ & Hlast).
  - reflexivity.
  - simpl. lia.
  - intros i Hi. unfold failed. simpl. discriminate.
  - split; [|split].
    + apply Hlast; [unfold failed; simpl; discriminate|reflexivity].
    + apply Hwaits. lia.
    + destruct (Hclock 0) as [H0 H1]; [lia|]. destruct (Hclock 1) as [H2 H3]; [lia|].
      repeat split; reflexivity.
Defined.

(** With 26 attempts allowed, the wait after the 25th failed attempt is set
    for [2^25 * 100] ms, and attempt 26 begins 1 ms after attempt 25 ended:
    less than the wait before it, which took [2^24 * 100] ms. *)
Lemma wait_after_attempt_25 :
  trySendWithRetries "m1" welcome (constructor [failingAtOnce] 26 5) epoch
    = prepend (failedAttempts 0 welcome 0 25)
        (retryLoop 2 25 "m1" welcome (constructor [failingAtOnce] 26 5)
           (attemptWorld failingAtOnce welcome epoch 25)) /\
  waits (failedAttempts 0 welcome 0 25) !! 24 = Some (2 ^ 25 * 100)%Z /\
  (clock (attemptWorld failingAtOnce welcome epoch 24)
   - clock (attemptEnd failingAtOnce welcome epoch 23) = 2 ^ 24 * 100)%Z /\
  (clock (attemptWorld failingAtOnce welcome epoch 25)
   - clock (attemptEnd failingAtOnce welcome epoch 24) = 1)%Z /\
  ¬ (clock (attemptWorld failingAtOnce welcome epoch 25)
     - clock (attemptEnd failingAtOnce welcome epoch 24) = 2 ^ 25 * 100)%Z.
Proof.
  split; [vm_compute; reflexivity|]. split; [vm_compute; reflexivity|].
  split; [vm_compute; reflexivity|]. split; [vm_compute; reflexivity|].
  vm_compute. discriminate.
Qed.

Example backoff_three_failures :
  trySendWithRetries "m1" welcome (defaultService [faulting; backup]) epoch
  = Some (Val allFailed (setCursor 1 (defaultService [faulting; backup]))
            (mkWorld 1700000000615 3),
          [EvCall 0 welcome; EvSleep 200; EvCall 0 welcome; EvSleep 400;
           EvCall 0 welcome; EvSwitch 1]).
Proof. vm_compute. reflexivity. Qed.

(** ** Faults and rejections *)

Lemma onService_prepend {A} f evs (r : option (Result A * list Event)) :
  onService f (prepend evs r) = prepend evs (onService f r).
Proof. by destruct r as [[[]]|]. Qed.

Lemma nextIndex_setProviders ps s :
  length ps = length (providers s) -> nextIndex (setProviders ps s) = nextIndex s.
Proof. intros H. unfold nextIndex. simpl. by rewrite H. Qed.

(** The retry loop cannot tell a fault from a rejection: against providers
    that fail on the same calls, in whatever way, it runs the same. *)
Lemma retryLoop_sim ps fuel : forall a id d s w,
  Forall2 sameAttempts (providers s) ps ->
  retryLoop fuel a id d (setProviders ps s) w
  = onService (setProviders ps) (retryLoop fuel a id d s w).
Proof.
  induction fuel as [|fuel IH]; intros a id d s w Hsim; [done|].
  cbn [retryLoop]. change (maxRetries (setProviders ps s)) with (maxRetries s).
  destruct (a <? maxRetries s) eqn:Ha; [|done].
  change (providers (setProviders ps s) !! currentProviderIndex (setProviders ps s))
    with (ps !! currentProviderIndex s).
  pose proof (Forall2_length _ _ _ Hsim) as Hlen.
  pose proof (proj1 (Forall2_lookup _ _ _) Hsim (currentProviderIndex s)) as Hlk.
  destruct (providers s !! currentProviderIndex s) as [p|] eqn:E;
    inversion Hlk as [p0 p' Hpp' E0 E'|]; subst; [|done].
  assert (Hj : currentProviderIndex s < length (providers s))
    by (eapply lookup_lt_Some; eauto).
  symmetry in Hlen.
  unfold callProvider.
  destruct (Hpp' (ncalls w) d) as [Hlat Hout]. rewrite <- Hlat.
  change (currentProviderIndex (setProviders ps s)) with (currentProviderIndex s).
  destruct (tryBlock (outcome (respond p (ncalls w) d))) as [msg|] eqn:Hp;
    destruct (tryBlock (outcome (respond p' (ncalls w) d))) as [msg'|] eqn:Hp'.
  - destruct (S a <? maxRetries s) eqn:Ha'.
    + rewrite IH by done. by rewrite onService_prepend.
    + rewrite !switchProvider_inbounds by (simpl; lia).
      rewrite nextIndex_setProviders by done.
      change (setCursor (nextIndex s) (setProviders ps s))
        with (setProviders ps (setCursor (nextIndex s) s)).
      rewrite IH by done. by rewrite onService_prepend.
  - apply tryBlock_None, Hout, tryBlock_None in Hp'. congruence.
  - apply tryBlock_None, Hout, tryBlock_None in Hp. congruence.
  - done.
Qed.

Lemma RetryRun_returns d s w a r evs :
  currentProviderIndex s < length (providers s) ->
  RetryRun d s w a r evs ->
  exists st s' w', r = Val st s' w' /\ (st = sentOk \/ st = allFailed).
Proof.
  intros Hj H. inversion H; subst; eauto 6.
  match goal with Hnone : _ !! _ = None |- _ => apply lookup_ge_None in Hnone; lia end.
Qed.

(** With a valid cursor an iteration of the drain loop never throws. *)
Lemma drainStep_proceeds s w :
  currentProviderIndex s < length (providers s) ->
  exists s1 w1 evs1,
    drainStep s w = Some (Done s1 w1, evs1) \/ drainStep s w = Some (Again s1 w1, evs1).
Proof.
  intros Hj. destruct (emailQueue s) as [|e rest] eqn:Hq.
  { eexists _, _, _. left. by apply drainStep_empty. }
  destruct (decide (length (recent (clock w) (lastSentTimestamps s)) < rateLimit s))
    as [Hl|Hl].
  - destruct (drainStep_admitted s w e rest Hq Hl) as (r & evs & _ & Hrun & Hd).
    apply RetryRun_returns in Hrun as (st & s' & w' & -> & _); [|done].
    eexists _, _, _. right. exact Hd.
  - eexists _, _, _. right. eapply drainStep_limited; eauto. lia.
Qed.

(** Take any provider list [ps] whose providers fail on the same calls as
    those of the service, be it by throwing an error or by a rejection.  From
    a valid cursor [trySendWithRetries] returns a status, and it returns the
    same status after the same events (calls, waits, cursor switch) and at the
    same instant against [ps]; the iteration of the drain loop does not throw
    either, so the loop goes on. *)
Lemma errors_like_rejections id d s w ps :
  currentProviderIndex s < length (providers s) ->
  Forall2 sameAttempts (providers s) ps ->
  exists st s' w' evs,
    trySendWithRetries id d s w = Some (Val st s' w', evs) /\
    trySendWithRetries id d (setProviders ps s) w
      = Some (Val st (setProviders ps s') w', evs) /\
    (st = sentOk \/ st = allFailed) /\
    exists s1 w1 evs1,
      drainStep s w = Some (Done s1 w1, evs1) \/ drainStep s w = Some (Again s1 w1, evs1).
Proof.
  intros Hj Hsim.
  destruct (trySendWithRetries_run id d s w) as (r & evs & Hrun & Hshape).
  destruct (RetryRun_returns _ _ _ _ _ _ Hj Hshape) as (st & s' & w' & -> & Hst).
  exists st, s', w', evs. split; [exact Hrun|]. split.
  - unfold trySendWithRetries in *.
    change (maxRetries (setProviders ps s)) with (maxRetries s).
    rewrite retryLoop_sim by done. by rewrite Hrun.
  - split; [exact Hst|]. by apply drainStep_proceeds.
Qed.

(** ** A provider that throws a value without a message *)

(** C8. The provider throws [undefined] on the first call.  The [catch]
    clause of [trySendWithRetries] reads [error.message] and throws a
    [TypeError], which nothing catches: the call of [sendEmail] is rejected
    after a single provider call, with no retry, no backoff wait and no
    cursor switch; the entry has been popped, no status is recorded for it
    and it is not in [sentEmails].  The same call against the same provider
    throwing an [Error] is three failed attempts, two backoff waits, the
    cursor switch and the failure status. *)
Theorem thrown_undefined_propagates :
  (exists rt,
     awaiting 1 [mkEntry "m1" welcome]
       (boot (defaultService [faulting; backup]) epoch undefinedOnly) = Some rt /\
     calls rt = [Threw typeError] /\
     allEvents rt = [EvShift "m1"; EvCall 0 welcome] /\
     emailQueue (service rt) = [] /\
     status (service rt) !! "m1"%string = None /\
     sentEmails (service rt) = ∅ /\
     currentProviderIndex (service rt) = 0) /\
  (exists rt,
     awaiting 6 [mkEntry "m1" welcome]
       (boot (defaultService [faulting; backup]) epoch errorsOnly) = Some rt /\
     calls rt = [Resolved RetUndefined] /\
     allEvents rt
       = [EvShift "m1"; EvCall 0 welcome; EvSleep 200; EvCall 0 welcome; EvSleep 400;
          EvCall 0 welcome; EvSwitch 1; EvStatus "m1" allFailed] /\
     status (service rt) !! "m1"%string = Some allFailed /\
     currentProviderIndex (service rt) = 1).
Proof.
  split.
  - destruct (awaiting 1 _ _) as [rt|] eqn:E; [|vm_compute in E; discriminate E].
    exists rt. split; [reflexivity|].
    vm_compute in E. injection E as <-. repeat split; reflexivity.
  - destruct (awaiting 6 _ _) as [rt|] eqn:E; [|vm_compute in E; discriminate E].
    exists rt. split; [reflexivity|].
    vm_compute in E. injection E as <-. repeat split; reflexivity.
Qed.

(** ** Iterations of the drain loop, case by case *)


Lemma drainStep_kind s w step evs :
  drainStep s w = Some (step, evs) -> StepKind s w step evs.
Proof.
  intros H. destruct (emailQueue s) as [|e rest] eqn:Hq.
  { rewrite drainStep_empty in H by done. inversion H; subst. by constructor. }
  destruct (decide (length (recent (clock w) (lastSentTimestamps s)) < rateLimit s))
    as [Hl|Hl].
  - destruct (drainStep_admitted s w e rest Hq Hl) as (r & evs0 & _ & Hrun & Hd).
    rewrite Hd in H. destruct r as [st s3 w3|err s3 w3]; inversion H; subst.
    + eapply StepResolved; eauto.
    + eapply StepThrew; eauto.
  - assert (Hlim : rateLimit s ≤ length (recent (clock w) (lastSentTimestamps s))) by lia.
    rewrite (drainStep_limited s w e rest Hq Hlim) in H. inversion H; subst.
    eapply StepLimited; eauto.
Qed.

(** ** The provider cursor *)







(** ** The rate limiter *)










(** ** Arrival order, status table and sent set *)

Lemma replay_app m l1 l2 : replay (replay m l1) l2 = replay m (l1 ++ l2).
Proof. unfold replay. by rewrite foldl_app. Qed.

(** What an iteration that does not throw does to the queue, the status
    table and the sent set, read off its events. *)
Lemma StepKind_tables s w step evs :
  StepKind s w step evs ->
  (forall err s' w', step ≠ Raised err s' w') ->
  map emailId (emailQueue s)
    = (statusWrites evs).*1 ++ map emailId (emailQueue (stepService step)) /\
  milestones evs = statusWrites evs ≫= resolution /\
  status (stepService step) = replay (status s) (statusWrites evs) /\
  sentEmails (stepService step) = list_to_set (successIds evs) ∪ sentEmails s.
Proof.
  intros H Hno. inversion H; subst; simpl.
  - repeat split; auto. by rewrite (left_id_L ∅ (∪)).
  - repeat split; auto. by rewrite (left_id_L ∅ (∪)).
  - match goal with Hr : RetryRun _ _ _ _ _ _ |- _ =>
      pose proof (RetryRun_frame _ _ _ _ _ _ Hr) as (Hs3 & _);
      pose proof (RetryRun_quiet _ _ _ _ _ _ Hr) as (_ & _ & Hq3 & Hq4 & Hq5) end.
    simpl in Hs3. rewrite recordOutcome_service, recordOutcome_events.
    rewrite !statusWrites_app, !successIds_app, !milestones_app, Hq3, Hq4, Hq5, Hs3.
    match goal with Hq : emailQueue s = _ |- _ => rewrite Hq end.
    destruct (success st) eqn:Hst; simpl; rewrite ?Hst; repeat split; auto.
    + by rewrite list_to_set_cons, list_to_set_nil, (right_id_L ∅ (∪)).
    + by rewrite list_to_set_nil, (left_id_L ∅ (∪)).
  - by edestruct Hno.
Qed.

Lemma Drains_tables s w r evs :
  Drains s w r evs ->
  forall s' w', r = Val tt s' w' ->
  emailQueue s' = [] /\
  map emailId (emailQueue s) = (statusWrites evs).*1 /\
  milestones evs = statusWrites evs ≫= resolution /\
  status s' = replay (status s) (statusWrites evs) /\
  sentEmails s' = list_to_set (successIds evs) ∪ sentEmails s.
Proof.
  induction 1 as [s w s1 w1 evs H|s w err s1 w1 evs H|s w s1 w1 evs1 r evs H _ IH];
    intros s' w' Hr; [| discriminate |].
  - inversion Hr; subst. apply drainStep_kind in H. inversion H; subst. simpl.
    repeat split; auto; rewrite ?(left_id_L ∅ (∪)); try done.
    match goal with Hq : _ = [] |- _ => by rewrite Hq end.
  - apply drainStep_kind in H.
    destruct (StepKind_tables _ _ _ _ H) as (Hq & Hm & Hst & Hse); [done|].
    destruct (IH _ _ Hr) as (Hq' & Hids & Hm' & Hst' & Hse'). simpl in *.
    rewrite statusWrites_app, successIds_app, milestones_app.
    split; [done|]. split; [by rewrite Hq, Hids, fmap_app|].
    split; [by rewrite Hm, Hm', bind_app|].
    split; [by rewrite Hst', Hst, replay_app|].
    rewrite Hse', Hse, list_to_set_app_L, (assoc_L (∪)).
    by rewrite (comm_L (∪) (list_to_set (successIds evs))).

Qed.

(** From a well-formed state the drain loop comes to an end without
    throwing, for every fuel from some bound on. *)
Lemma processQueue_terminates s w :
  WellFormed s w ->
  exists fuel0 s' w' evs,
    Drains s w (Val tt s' w') evs /\
    forall fuel, fuel0 ≤ fuel -> processQueue fuel s w = Some (Val tt s' w', evs).
Proof.
  intros Hwf.
  destruct (Drains_terminates (length (emailQueue s)) 60 s w) as (s' & w' & evs & HD);
    [done|done| |].
  { destruct Hwf as (_ & _ & Ht). eapply Forall_impl; [exact Ht|]. simpl. intros; lia. }
  destruct (Drains_processQueue _ _ _ _ HD) as [fuel0 Hf].
  exists fuel0, s', w', evs. done.
Qed.












(** The awaited calls of the witness: "email1" exhausts its attempts
    against the first provider, "email2" is called 250 ms later and
    delivered by the second. *)
Example awaited_calls_run :
  exists s' w',
    awaitEach 2 [mkSubmission 0 (mkEntry "email1" welcome);
                 mkSubmission 250 (mkEntry "email2" update)]
      (defaultService [faulting; backup]) epoch
    = Some (Val tt s' w',
            [EvShift "email1"; EvCall 0 welcome; EvSleep 200; EvCall 0 welcome; EvSleep 400;
             EvCall 0 welcome; EvSwitch 1; EvStatus "email1" allFailed;
             EvShift "email2"; EvCall 1 update; EvSent "email2" 1700000000872;
             EvStatus "email2" sentOk]).
Proof. eexists _, _. vm_compute. reflexivity. Qed.


(** The run of the backlog: "a" exhausts three attempts against the first
    provider and the cursor moves on; "b" and "c" are delivered at once by
    the second provider. *)
Example backlog_run :
  exists s' w',
    processQueue 4 backlog epoch
    = Some (Val tt s' w',
            [EvShift "a"; EvCall 0 welcome; EvSleep 200; EvCall 0 welcome; EvSleep 400;
             EvCall 0 welcome; EvSwitch 1; EvStatus "a" allFailed;
             EvShift "b"; EvCall 1 update; EvSent "b" 1700000000622; EvStatus "b" sentOk;
             EvShift "c"; EvCall 1 welcome; EvSent "c" 1700000000629; EvStatus "c" sentOk]) /\
    status s' !! "a"%string = Some allFailed /\
    status s' !! "b"%string = Some sentOk /\
    currentProviderIndex s' = 1.
Proof. eexists _, _. vm_compute. repeat split; reflexivity. Qed.





Example failure_then_resubmission :
  sendEmail 2 "m1" welcome (defaultService [faulting; backup]) epoch
  = Some (Val RetUndefined afterFailure afterFailureWorld,
          [EvShift "m1"; EvCall 0 welcome; EvSleep 200; EvCall 0 welcome; EvSleep 400;
           EvCall 0 welcome; EvSwitch 1; EvStatus "m1" allFailed]) /\
  exists s' w',
    sendEmail 2 "m1" welcome afterFailure afterFailureWorld
    = Some (Val RetUndefined s' w',
            [EvShift "m1"; EvCall 1 welcome; EvSent "m1" 1700000000622;
             EvStatus "m1" sentOk]) /\
    status s' !! "m1"%string = Some sentOk.
Proof. split; [vm_compute; reflexivity|]. eexists _, _. vm_compute. split; reflexivity. Qed.

(** ** Failover *)



(** A retry run against a provider that fails on the next [maxRetries] calls
    makes [maxRetries] calls, switches the cursor once and returns the
    failure status. *)
Lemma RetryRun_exhausted d s w r evs p :
  RetryRun d s w 0 r evs ->
  providers s !! currentProviderIndex s = Some p ->
  1 ≤ maxRetries s ->
  (forall i, i < maxRetries s -> failed (respond p (ncalls w + i) d)) ->
  r = Val allFailed (setCursor (nextIndex s) s) (resultWorld r) /\
  evs = failedAttempts (currentProviderIndex s) d 0 (maxRetries s - 1)
        ++ [EvCall (currentProviderIndex s) d; EvSwitch (nextIndex s)].
Proof.
  intros H Hp Hm Hfail. inversion H; subst; simpl in *.
  - lia.
  - congruence.
  - match goal with Hq : _ !! _ = Some p0 |- _ => rewrite Hp in Hq; inversion Hq; subst p0 end.
    exfalso. apply (Hfail k); [lia|done].
  - replace (maxRetries s - 1) with k by lia. done.
Qed.






Example failover_between_submissions :
  exists s' w',
    awaitEach 2 [mkSubmission 0 (mkEntry "m1" welcome); mkSubmission 0 (mkEntry "m2" update)]
      (constructor [rejecting; backup] 2 5) epoch
    = Some (Val tt s' w',
            [EvShift "m1"; EvCall 0 welcome; EvSleep 200; EvCall 0 welcome; EvSwitch 1;
             EvStatus "m1" allFailed;
             EvShift "m2"; EvCall 1 update; EvSent "m2" 1700000000217; EvStatus "m2" sentOk]).
Proof. eexists _, _. vm_compute. reflexivity. Qed.


Example failover_run :
  exists s' w',
    processQueue 3 failoverService epoch
    = Some (Val tt s' w',
            [EvShift "m1"; EvCall 0 welcome; EvSleep 200; EvCall 0 welcome; EvSwitch 1;
             EvStatus "m1" allFailed;
             EvShift "m2"; EvCall 1 update; EvSent "m2" 1700000000217;
             EvStatus "m2" sentOk]) /\
    currentProviderIndex s' = 1.
Proof. eexists _, _. vm_compute. split; reflexivity. Qed.

(** ** The value of [sendEmail] *)

(** A call of [sendEmail] that returns has either answered a duplicate with
    the duplicate-prevented status, touching nothing, or drained the whole
    queue and resolved to [undefined]. *)
Lemma sendEmail_returned fuel id d s w ret s' w' evs :
  sendEmail fuel id d s w = Some (Val ret s' w', evs) ->
  if decide (id ∈ sentEmails s)
  then ret = RetStatus duplicatePrevented /\ s' = s /\ w' = w /\ evs = []
  else ret = RetUndefined /\ emailQueue s' = [].
Proof.
  unfold sendEmail. intros H. destruct (decide (id ∈ sentEmails s)) as [Hin|Hin].
  - inversion H; subst. done.
  - destruct (processQueue fuel _ w) as [[[[] s2 w2|err s2 w2] evs']|] eqn:Hrun;
      try discriminate.
    inversion H; subst. apply processQueue_Drains in Hrun.
    destruct (Drains_tables _ _ _ _ Hrun s' w' eq_refl) as (Hq & _). done.
Qed.

(** C6. On the first submission of an id to a fresh default service with a
    reliable provider, [sendEmail] drains the queue, records the success in
    the status table and resolves to [undefined], not to a
    [{ success, message }] object. *)
Theorem sendEmail_resolves_undefined :
  exists s' w' evs,
    sendEmail 2 "email1" welcome (defaultService [reliable; backup]) epoch
      = Some (Val RetUndefined s' w', evs) /\
    emailQueue s' = [] /\
    status s' !! "email1"%string = Some sentOk.
Proof. eexists _, _, _. vm_compute. repeat split; reflexivity. Qed.


(** * Further properties of the code *)

(** ** [switchProvider] *)

Lemma setCursor_id s : setCursor (currentProviderIndex s) s = s.
Proof. by destruct s. Qed.

Lemma switchTimes_cursor k : forall s w,
  CursorOk s ->
  exists evs,
    switchTimes k s w
    = (Val tt (setCursor ((currentProviderIndex s + k) mod length (providers s)) s) w, evs) /\
    length evs = k.
Proof.
  induction k as [|k IH]; intros s w Hj; unfold CursorOk in Hj.
  - exists []. simpl. rewrite Nat.add_0_r, Nat.mod_small by done.
    by rewrite setCursor_id.
  - simpl. rewrite switchProvider_inbounds by done.
    destruct (IH (setCursor (nextIndex s) s) w) as (evs & Heq & Hlen).
    { unfold CursorOk, nextIndex. simpl. apply Nat.mod_upper_bound. lia. }
    rewrite Heq. exists (EvSwitch (nextIndex s) :: evs). split; [|simpl; by rewrite Hlen].
    unfold nextIndex. simpl. rewrite Nat.Div0.add_mod_idemp_l.
    by replace (currentProviderIndex s + 1 + k) with (currentProviderIndex s + S k) by lia.
Qed.

(** X1. From a valid cursor, [k] calls of [switchProvider] in a row never
    throw and leave the cursor at [(j + k) mod N] with nothing else changed;
    as many calls as there are providers bring the service back to where it
    was. *)
Theorem switchProvider_cycle s w k :
  CursorOk s ->
  (exists evs,
     switchTimes k s w
     = (Val tt (setCursor ((currentProviderIndex s + k) mod length (providers s)) s) w, evs)) /\
  (exists evs, switchTimes (length (providers s)) s w = (Val tt s w, evs)).
Proof.
  intros Hj. split.
  - destruct (switchTimes_cursor k s w Hj) as (evs & Heq & _). eauto.
  - destruct (switchTimes_cursor (length (providers s)) s w Hj) as (evs & Heq & _).
    exists evs. rewrite Heq. unfold CursorOk in Hj.
    replace ((currentProviderIndex s + length (providers s)) mod length (providers s))
      with (currentProviderIndex s); [by rewrite setCursor_id|].
    rewrite <- (Nat.mul_1_l (length (providers s))) at 1.
    rewrite Nat.Div0.mod_add. by rewrite Nat.mod_small.
Qed.

Lemma switchProvider_cycle_witness :
  (exists evs,
     switchTimes 5 (defaultService [faulting; backup; reliable]) epoch
     = (Val tt (setCursor 2 (defaultService [faulting; backup; reliable])) epoch, evs)) /\
  (exists evs,
     switchTimes 3 (defaultService [faulting; backup; reliable]) epoch
     = (Val tt (defaultService [faulting; backup; reliable]) epoch, evs)).
Proof.
  apply (switchProvider_cycle (defaultService [faulting; backup; reliable]) epoch 5).
  unfold CursorOk. simpl. lia.
Defined.

(** ** Sending one message on an empty queue *)

(** A submission that is admitted at once on an empty queue takes two
    evaluations of the loop test: the entry is popped and resolved, then the
    loop ends. *)
Lemma sendEmail_single id d s w r evs0 :
  id ∉ sentEmails s ->
  emailQueue s = [] ->
  length (recent (clock w) (lastSentTimestamps s)) < rateLimit s ->
  trySendWithRetries id d (admitted [] s w) w = Some (r, evs0) ->
  forall fuel,
    sendEmail (S (S fuel)) id d s w
    = Some match r with
           | Val st s3 w3 =>
             (Val RetUndefined (recordOutcome id st s3 w3).1 w3,
              EvShift id :: evs0 ++ (recordOutcome id st s3 w3).2)
           | Exn err s3 w3 => (Exn err s3 w3, EvShift id :: evs0)
           end.
Proof.
  intros Hid Hq Hl Hrun fuel. unfold sendEmail.
  destruct (decide (id ∈ sentEmails s)); [contradiction|].
  rewrite Hq. simpl app.
  set (s1 := setQueue [mkEntry id d] s).
  destruct (drainStep_admitted s1 w (mkEntry id d) [] eq_refl Hl) as (r' & evs' & Hrun' & Hshape & Hd).
  change (admitted [] s1 w) with (admitted [] s w) in Hrun', Hshape.
  simpl in Hrun'. rewrite Hrun in Hrun'. inversion Hrun'; subst r' evs'.
  cbn [processQueue]. rewrite Hd.
  destruct r as [st s3 w3|err s3 w3]; [|done].
  apply RetryRun_frame in Hshape as (Hs3 & _). simpl in Hs3.
  rewrite drainStep_empty.
  - simpl. by rewrite app_nil_r.
  - rewrite recordOutcome_service. simpl. by rewrite Hs3.
Qed.

(** ** Edge configurations *)

(** X2. With an empty provider list [switchProvider] throws, and so does
    [trySendWithRetries] when at least one attempt is allowed, before any
    provider call or wait.  A submission then rejects with that error after
    its entry has been popped: the queue is empty again, the status table
    and [sentEmails] hold no trace of the message. *)
Theorem no_providers_throws id d s w :
  providers s = [] ->
  1 ≤ maxRetries s ->
  id ∉ sentEmails s ->
  emailQueue s = [] ->
  length (recent (clock w) (lastSentTimestamps s)) < rateLimit s ->
  (exists s', switchProvider s w = (Exn typeError s' w, [])) /\
  trySendWithRetries id d s w = Some (Exn typeError s w, []) /\
  forall fuel,
    sendEmail (S (S fuel)) id d s w
    = Some (Exn typeError (admitted [] s w) w, [EvShift id]) /\
    emailQueue (admitted [] s w) = [] /\
    status (admitted [] s w) = status s /\
    sentEmails (admitted [] s w) = sentEmails s.
Proof.
  intros Hp Hm Hid Hq Hl.
  assert (Htry : forall s0, providers s0 = [] -> 1 ≤ maxRetries s0 ->
            trySendWithRetries id d s0 w = Some (Exn typeError s0 w, [])).
  { intros s0 Hp0 Hm0. unfold trySendWithRetries. cbn [retryLoop].
    destruct (0 <? maxRetries s0) eqn:E; [|apply Nat.ltb_ge in E; lia].
    by rewrite Hp0. }
  split; [|split; [by apply Htry|]].
  - unfold switchProvider. simpl. rewrite Hp. simpl. eauto.
  - intros fuel. split; [|done].
    rewrite (sendEmail_single id d s w _ _ Hid Hq Hl (Htry (admitted [] s w) Hp Hm)). done.
Qed.

Lemma no_providers_throws_witness :
  (exists s', switchProvider (defaultService []) epoch = (Exn typeError s' epoch, [])) /\
  trySendWithRetries "m1" welcome (defaultService []) epoch
    = Some (Exn typeError (defaultService []) epoch, []) /\
  forall fuel,
    sendEmail (S (S fuel)) "m1" welcome (defaultService []) epoch
    = Some (Exn typeError (admitted [] (defaultService []) epoch) epoch, [EvShift "m1"]) /\
    emailQueue (admitted [] (defaultService []) epoch) = [] /\
    status (admitted [] (defaultService []) epoch) = status (defaultService []) /\
    sentEmails (admitted [] (defaultService []) epoch) = sentEmails (defaultService []).
Proof.
  apply (no_providers_throws "m1" welcome (defaultService []) epoch).
  - reflexivity.
  - simpl. lia.
  - simpl. apply not_elem_of_empty.
  - reflexivity.
  - simpl. lia.
Defined.



(** X4. With [rateLimit] equal to 0 the limiter never admits anything: on a
    non-empty queue every iteration of the drain loop is a sleep of 1000 ms,
    so [processQueue] does not come to an end whatever the fuel, and neither
    does the submission of an id that is not in [sentEmails]. *)
Theorem zero_rate_limit_diverges s w :
  rateLimit s = 0 ->
  (forall fuel, emailQueue s ≠ [] -> processQueue fuel s w = None) /\
  (forall fuel id d, id ∉ sentEmails s -> sendEmail fuel id d s w = None) /\
  (forall r evs, emailQueue s ≠ [] -> ¬ Drains s w r evs).
Proof.
  intros Hr.
  assert (Hloop : forall fuel s0 w0, rateLimit s0 = 0 -> emailQueue s0 ≠ [] ->
            processQueue fuel s0 w0 = None).
  { induction fuel as [|fuel IH]; intros s0 w0 Hr0 Hq0; [done|].
    destruct (emailQueue s0) as [|e rest] eqn:Hq; [done|].
    cbn [processQueue]. rewrite (drainStep_limited s0 w0 e rest Hq) by lia.
    rewrite IH; [done|done|]. simpl. by rewrite Hq. }
  split; [|split].
  - intros fuel Hq. by apply Hloop.
  - intros fuel id d Hid. unfold sendEmail.
    destruct (decide (id ∈ sentEmails s)); [contradiction|].
    rewrite Hloop; [done|done|]. simpl. by destruct (emailQueue s).
  - intros r evs Hq HD. destruct (Drains_processQueue _ _ _ _ HD) as [fuel0 Hf].
    specialize (Hf fuel0 (le_n _)). rewrite Hloop in Hf; done.
Qed.

Lemma zero_rate_limit_diverges_witness :
  (forall fuel, emailQueue (setQueue [mkEntry "m1" welcome] (constructor [reliable] 3 0)) ≠ [] ->
     processQueue fuel (setQueue [mkEntry "m1" welcome] (constructor [reliable] 3 0)) epoch
     = None) /\
  (forall fuel id d,
     id ∉ sentEmails (setQueue [mkEntry "m1" welcome] (constructor [reliable] 3 0)) ->
     sendEmail fuel id d (setQueue [mkEntry "m1" welcome] (constructor [reliable] 3 0)) epoch
     = None) /\
  (forall r evs, emailQueue (setQueue [mkEntry "m1" welcome] (constructor [reliable] 3 0)) ≠ [] ->
     ¬ Drains (setQueue [mkEntry "m1" welcome] (constructor [reliable] 3 0)) epoch r evs).
Proof.
  apply (zero_rate_limit_diverges
           (setQueue [mkEntry "m1" welcome] (constructor [reliable] 3 0)) epoch).
  reflexivity.
Defined.

(** ** How long the rate limiter holds the queue *)

Lemma recent_length now l : length (recent now l) ≤ length l.
Proof. apply length_filter. Qed.

Lemma Drains_polls_bound s w r evs :
  Drains s w r evs ->
  forall K e rest s' w',
    r = Val tt s' w' ->
    emailQueue s = e :: rest ->
    1 ≤ rateLimit s ->
    Forall (λ t, (t + 60000 ≤ clock w + 1000 * Z.of_nat K)%Z) (lastSentTimestamps s) ->
    exists k evs',
      k ≤ K /\
      evs = replicate k (EvSleep 1000) ++ EvShift (emailId e) :: evs' /\
      (length (lastSentTimestamps s) < rateLimit s -> k = 0).
Proof.
  induction 1 as [s w s1 w1 evs H|s w err s1 w1 evs H|s w s1 w1 evs1 r evs H _ IH];
    intros K e rest s' w' Hr Hq Hrl HK; [| discriminate |];
    apply drainStep_kind in H; inversion H; subst; try congruence.
  - match goal with Hl : rateLimit s ≤ _ |- _ => rename Hl into Hlim end.
    destruct K as [|K].
    { rewrite recent_stale in Hlim; [simpl in Hlim; lia|].
      eapply Forall_impl; [exact HK|]. simpl. intros; lia. }
    destruct (IH K e rest s' w' eq_refl) as (k & evs' & Hk & Hevs & _).
    + simpl. congruence.
    + done.
    + simpl. poll_delay. apply recent_Forall. eapply Forall_impl; [exact HK|]. simpl. intros; lia.
    + exists (S k), evs'. split; [lia|]. split; [by rewrite Hevs|].
      pose proof (recent_length (clock w) (lastSentTimestamps s)). lia.
  - match goal with Hq' : emailQueue s = _ |- _ => rewrite Hq in Hq'; inversion Hq'; subst end.
    exists 0. eexists. split; [lia|]. split; [|done]. simpl. by rewrite <- app_assoc.
Qed.

(** X5. From a well-formed state the head of a non-empty queue is popped
    after at most 60 polls of 1000 ms, and at once when the ledger holds
    fewer than [rateLimit] instants. *)
Theorem admission_within_a_minute s w e rest :
  WellFormed s w ->
  emailQueue s = e :: rest ->
  exists fuel0 s' w' k evs',
    (forall fuel, fuel0 ≤ fuel ->
       processQueue fuel s w
       = Some (Val tt s' w', replicate k (EvSleep 1000) ++ EvShift (emailId e) :: evs')) /\
    k ≤ 60 /\
    (length (lastSentTimestamps s) < rateLimit s -> k = 0).
Proof.
  intros Hwf Hq.
  destruct (processQueue_terminates s w Hwf) as (fuel0 & s' & w' & evs & HD & Hf).
  destruct Hwf as (_ & Hrl & Ht).
  destruct (Drains_polls_bound _ _ _ _ HD 60 e rest s' w' eq_refl Hq Hrl)
    as (k & evs' & Hk & Hevs & H0).
  { eapply Forall_impl; [exact Ht|]. simpl. intros; lia. }
  subst evs. exists fuel0, s', w', k, evs'. done.
Qed.

Lemma admission_within_a_minute_witness :
  exists fuel0 s' w' k evs',
    (forall fuel, fuel0 ≤ fuel ->
       processQueue fuel cappedService afterDupWorld
       = Some (Val tt s' w', replicate k (EvSleep 1000) ++ EvShift "m2" :: evs')) /\
    k ≤ 60 /\
    (1 < 1 -> k = 0).
Proof.
  apply (admission_within_a_minute cappedService afterDupWorld (mkEntry "m2" update) []).
  - unfold WellFormed. simpl. split; [lia|]. split; [lia|].
    constructor; [simpl; lia|constructor].
  - reflexivity.
Defined.

(** ** Resources a drain uses *)

Lemma RetryRun_calls d s w r evs :
  RetryRun d s w 0 r evs -> length (calledProviders evs) ≤ maxRetries s.
Proof.
  intros H. inversion H; subst; simpl; try lia;
    rewrite calledProviders_app, failedAttempts_calls, length_app, length_replicate;
    simpl; lia.
Qed.

(** What an iteration leaves alone, and how far the queue and the ledger can
    move. *)
Lemma StepKind_config s w step evs :
  StepKind s w step evs ->
  providers (stepService step) = providers s /\
  maxRetries (stepService step) = maxRetries s /\
  rateLimit (stepService step) = rateLimit s /\
  length (calledProviders evs) + maxRetries s * length (emailQueue (stepService step))
    ≤ maxRetries s * length (emailQueue s) /\
  (length (lastSentTimestamps s) ≤ rateLimit s ->
   length (lastSentTimestamps (stepService step)) ≤ rateLimit s).
Proof.
  intros H. inversion H; subst; simpl.
  - repeat split; auto; lia.
  - repeat split; auto; try lia.
    pose proof (recent_length (clock w) (lastSentTimestamps s)). lia.
  - match goal with Hr : RetryRun _ _ _ _ _ _ |- _ =>
      pose proof (RetryRun_frame _ _ _ _ _ _ Hr) as (Hs3 & _);
      pose proof (RetryRun_calls _ _ _ _ _ Hr) as Hc end.
    simpl in Hs3, Hc. rewrite recordOutcome_service, recordOutcome_events, Hs3. simpl.
    match goal with Hq : emailQueue s = _ |- _ => rewrite Hq end.
    rewrite !calledProviders_app, !length_app.
    destruct (success st); simpl; rewrite ?length_app; simpl; repeat split; auto; lia.
  - match goal with Hr : RetryRun _ _ _ _ _ _ |- _ =>
      pose proof (RetryRun_frame _ _ _ _ _ _ Hr) as (Hs3 & _);
      pose proof (RetryRun_calls _ _ _ _ _ Hr) as Hc end.
    simpl in Hs3, Hc. rewrite Hs3. simpl.
    match goal with Hq : emailQueue s = _ |- _ => rewrite Hq end.
    simpl. repeat split; auto; try lia.
Qed.

Lemma Drains_config s w r evs :
  Drains s w r evs ->
  providers (resultService r) = providers s /\
  maxRetries (resultService r) = maxRetries s /\
  rateLimit (resultService r) = rateLimit s /\
  length (calledProviders evs) ≤ maxRetries s * length (emailQueue s) /\
  (length (lastSentTimestamps s) ≤ rateLimit s ->
   length (lastSentTimestamps (resultService r)) ≤ rateLimit s).
Proof.
  induction 1 as [s w s1 w1 evs H|s w err s1 w1 evs H|s w s1 w1 evs1 r evs H _ IH];
    apply drainStep_kind, StepKind_config in H; simpl in *;
    destruct H as (Hp & Hm & Hr & Hc & Hl).
  - repeat split; auto. lia.
  - repeat split; auto. lia.
  - destruct IH as (Hp' & Hm' & Hr' & Hc' & Hl').
    rewrite calledProviders_app, length_app.
    repeat split; try congruence.
    + rewrite Hm in Hc'. lia.
    + intros Hlen. rewrite Hr in Hl'. auto.
Qed.

(** X6. As long as the calls of [sendEmail] and [processQueue] are awaited
    one after the other, so that one drain loop runs at a time, the ledger
    stays within the cap: it is empty after construction, and if it holds at
    most [rateLimit] instants before such a call, it holds at most
    [rateLimit] instants after; the cap itself is never changed.  (Calls
    that overlap leave more, see [overlapping_calls_exceed_cap].) *)
Theorem ledger_bounded s w :
  length (lastSentTimestamps s) ≤ rateLimit s ->
  (forall ps retries limit, lastSentTimestamps (constructor ps retries limit) = []) /\
  (forall fuel r evs,
     processQueue fuel s w = Some (r, evs) ->
     rateLimit (resultService r) = rateLimit s /\
     length (lastSentTimestamps (resultService r)) ≤ rateLimit s) /\
  (forall fuel id d r evs,
     sendEmail fuel id d s w = Some (r, evs) ->
     rateLimit (resultService r) = rateLimit s /\
     length (lastSentTimestamps (resultService r)) ≤ rateLimit s).
Proof.
  intros Hlen. split; [done|]. split.
  - intros fuel r evs H. apply processQueue_Drains, Drains_config in H.
    destruct H as (_ & _ & Hr & _ & Hl). auto.
  - intros fuel id d r evs H. unfold sendEmail in H.
    destruct (decide (id ∈ sentEmails s)); [inversion H; subst; done|].
    destruct (processQueue fuel _ w) as [[r' evs']|] eqn:Hrun; [|discriminate].
    apply processQueue_Drains, Drains_config in Hrun.
    destruct Hrun as (_ & _ & Hr & _ & Hl). simpl in Hr, Hl.
    destruct r' as [[] s2 w2|err s2 w2]; inversion H; subst; simpl in *; auto.
Qed.

Lemma ledger_bounded_witness :
  (forall fuel r evs,
     processQueue fuel cappedService afterDupWorld = Some (r, evs) ->
     rateLimit (resultService r) = 1 /\
     length (lastSentTimestamps (resultService r)) ≤ 1) /\
  exists s' w' evs,
    processQueue 62 cappedService afterDupWorld = Some (Val tt s' w', evs) /\
    lastSentTimestamps s' = [1700000060014%Z].
Proof.
  destruct (ledger_bounded cappedService afterDupWorld) as (_ & H & _).
  - simpl. lia.
  - split; [exact H|]. eexists _, _, _. vm_compute. split; reflexivity.
Defined.

(** X7. A run of [processQueue] calls providers at most [maxRetries] times
    per queued entry, and a call of [sendEmail] at most [maxRetries] times
    per entry of the queue and once more for the entry it adds; the provider
    list and [maxRetries] are never changed. *)
Theorem provider_calls_bounded s w :
  (forall fuel r evs,
     processQueue fuel s w = Some (r, evs) ->
     length (calledProviders evs) ≤ maxRetries s * length (emailQueue s) /\
     providers (resultService r) = providers s /\
     maxRetries (resultService r) = maxRetries s) /\
  (forall fuel id d r evs,
     sendEmail fuel id d s w = Some (r, evs) ->
     length (calledProviders evs) ≤ maxRetries s * (length (emailQueue s) + 1) /\
     providers (resultService r) = providers s /\
     maxRetries (resultService r) = maxRetries s).
Proof.
  split.
  - intros fuel r evs H. apply processQueue_Drains, Drains_config in H.
    destruct H as (Hp & Hm & _ & Hc & _). auto.
  - intros fuel id d r evs H. unfold sendEmail in H.
    destruct (decide (id ∈ sentEmails s)); [inversion H; subst; simpl; split; [lia|done]|].
    destruct (processQueue fuel _ w) as [[r' evs']|] eqn:Hrun; [|discriminate].
    apply processQueue_Drains, Drains_config in Hrun.
    destruct Hrun as (Hp & Hm & _ & Hc & _). simpl in Hp, Hm, Hc.
    rewrite length_app in Hc. simpl in Hc.
    destruct r' as [[] s2 w2|err s2 w2]; inversion H; subst; simpl in *; auto.
Qed.

(** ** The cursor counts the failed messages *)

Lemma failureWrites_app l1 l2 :
  failureWrites (l1 ++ l2) = failureWrites l1 ++ failureWrites l2.
Proof. unfold failureWrites. by rewrite statusWrites_app, filter_app. Qed.

Lemma failureWrites_resolved id evs0 tail :
  statusWrites evs0 = [] ->
  failureWrites (EvShift id :: evs0 ++ tail) = failureWrites tail.
Proof. intros H. unfold failureWrites. simpl. by rewrite statusWrites_app, H. Qed.

Lemma StepKind_failures s w step evs :
  CursorOk s ->
  1 ≤ maxRetries s ->
  StepKind s w step evs ->
  CursorOk (stepService step) /\
  currentProviderIndex (stepService step)
    = (currentProviderIndex s + length (failureWrites evs)) mod length (providers s) /\
  length (switches evs) = length (failureWrites evs).
Proof.
  unfold CursorOk. intros Hj Hm H.
  assert (Hsame : currentProviderIndex s
                  = (currentProviderIndex s + 0) mod length (providers s)).
  { by rewrite Nat.add_0_r, Nat.mod_small. }
  inversion H; subst; simpl; try done.
  - match goal with Hr : RetryRun _ _ _ _ _ _ |- _ =>
      pose proof (RetryRun_quiet _ _ _ _ _ _ Hr) as (_ & _ & Hq3 & _);
      inversion Hr; subst; simpl in * end.
    + lia.
    + rewrite (failureWrites_resolved _ _ _ Hq3).
      rewrite !switches_app, failedAttempts_switches. simpl. done.
    + rewrite (failureWrites_resolved _ _ _ Hq3).
      rewrite !switches_app, failedAttempts_switches. simpl.
      split; [|done]. unfold nextIndex. simpl. apply Nat.mod_upper_bound. lia.
  - match goal with Hr : RetryRun _ _ _ _ _ _ |- _ => inversion Hr; subst; simpl in * end.
    match goal with Hnone : _ !! _ = None |- _ => apply lookup_ge_None in Hnone; lia end.
Qed.

Lemma Drains_failures s w r evs :
  Drains s w r evs ->
  CursorOk s ->
  1 ≤ maxRetries s ->
  currentProviderIndex (resultService r)
    = (currentProviderIndex s + length (failureWrites evs)) mod length (providers s) /\
  length (switches evs) = length (failureWrites evs).
Proof.
  induction 1 as [s w s1 w1 evs H|s w err s1 w1 evs H|s w s1 w1 evs1 r evs H _ IH];
    intros Hj Hm; apply drainStep_kind in H;
    pose proof (StepKind_config _ _ _ _ H) as (Hp & Hm' & _);
    destruct (StepKind_failures _ _ _ _ Hj Hm H) as (Hok & Hcur & Hsw); simpl in *; try done.
  destruct IH as [Hcur' Hsw']; [done|lia|].
  rewrite failureWrites_app, switches_app, !length_app, Hcur', Hcur, Hp, Hsw, Hsw'.
  split; [|done]. rewrite Nat.Div0.add_mod_idemp_l. f_equal. lia.
Qed.

(** X8. With a valid cursor and at least one attempt per message, a run of
    [processQueue] switches the cursor once for every message it records as
    failed and never otherwise: the cursor ends at [(j + f) mod N], where [f]
    is the number of failure statuses written. *)
Theorem cursor_counts_failures fuel s w r evs :
  CursorOk s ->
  1 ≤ maxRetries s ->
  processQueue fuel s w = Some (r, evs) ->
  currentProviderIndex (resultService r)
    = (currentProviderIndex s + length (failureWrites evs)) mod length (providers s) /\
  length (switches evs) = length (failureWrites evs).
Proof.
  intros Hj Hm H. apply processQueue_Drains in H. exact (Drains_failures _ _ _ _ H Hj Hm).
Qed.

Lemma cursor_counts_failures_witness :
  exists r evs,
    processQueue 4 backlog epoch = Some (r, evs) /\
    currentProviderIndex (resultService r) = (0 + length (failureWrites evs)) mod 2 /\
    length (switches evs) = length (failureWrites evs) /\
    failureWrites evs = [("a"%string, allFailed)].
Proof.
  destruct (processQueue 4 backlog epoch) as [[r evs]|] eqn:E;
    [|vm_compute in E; discriminate E].
  exists r, evs. split; [reflexivity|].
  assert (Hf : failureWrites evs = [("a"%string, allFailed)]).
  { vm_compute in E. inversion E. reflexivity. }
  destruct (cursor_counts_failures 4 backlog epoch r evs) as [H1 H2].
  - unfold CursorOk. simpl. lia.
  - simpl. lia.
  - exact E.
  - split; [exact H1|]. split; [exact H2|exact Hf].
Defined.

(** ** The status table *)

Lemma replay_snoc m ws k st : replay m (ws ++ [(k, st)]) = <[k := st]> (replay m ws).
Proof. unfold replay. by rewrite foldl_app. Qed.

Lemma replay_lookup_notin (m : gmap string SendStatus) ws k :
  k ∉ ws.*1 -> replay m ws !! k = m !! k.
Proof.
  induction ws as [|[k' st'] ws IH] using rev_ind; [done|].
  rewrite fmap_app, not_elem_of_app. simpl. intros [Hws Hk].
  rewrite replay_snoc, lookup_insert_ne; [auto|].
  intros ->. apply Hk. by apply list_elem_of_singleton.
Qed.

Lemma replay_lookup_in (m : gmap string SendStatus) ws k :
  k ∈ ws.*1 -> exists st, (k, st) ∈ ws /\ replay m ws !! k = Some st.
Proof.
  induction ws as [|[k' st'] ws IH] using rev_ind; [by intros ?%elem_of_nil|].
  rewrite fmap_app, elem_of_app. simpl. intros Hin.
  rewrite replay_snoc. destruct (decide (k' = k)) as [->|Hne].
  - exists st'. rewrite lookup_insert_eq. split; [|done].
    apply elem_of_app. right. by apply list_elem_of_singleton.
  - destruct Hin as [Hin|Hin]; [|apply list_elem_of_singleton in Hin; congruence].
    destruct (IH Hin) as (st & Hst & Hlk). exists st.
    rewrite lookup_insert_ne by done. split; [|done]. apply elem_of_app. by left.
Qed.

(** Only the two statuses built by [trySendWithRetries] are ever written. *)
Lemma Drains_status_values s w r evs :
  Drains s w r evs ->
  Forall (λ p, p.2 = sentOk \/ p.2 = allFailed) (statusWrites evs).
Proof.
  induction 1 as [s w s1 w1 evs H|s w err s1 w1 evs H|s w s1 w1 evs1 r evs H _ IH];
    apply drainStep_kind in H.
  1,2: inversion H; subst; simpl; try done;
       match goal with Hr : RetryRun _ _ _ _ _ _ |- _ =>
         pose proof (RetryRun_quiet _ _ _ _ _ _ Hr) as (_ & _ & Hq3 & _) end;
       by rewrite Hq3.
  rewrite statusWrites_app. apply Forall_app. split; [|done].
  inversion H; subst; simpl; try done.
  match goal with Hr : RetryRun _ _ _ _ _ _ |- _ =>
    pose proof (RetryRun_quiet _ _ _ _ _ _ Hr) as (_ & _ & Hq3 & _) end.
  rewrite recordOutcome_events, !statusWrites_app, Hq3.
  match goal with Hr : RetryRun _ _ _ _ _ _ |- _ =>
    inversion Hr; subst; simpl; (constructor; [simpl; auto|done]) end.
Qed.

(** X9. The status table holds the own properties of the object
    [this.status].  A run of [processQueue] that drains a queue none of whose
    ids is "__proto__" (an assignment to that key sets the prototype of the
    object and creates no property) creates or overwrites properties only at
    the ids that were queued: every other id keeps its entry, or stays
    without one, and every queued id ends with the success status or the
    failure status of [trySendWithRetries]. *)
Theorem status_frame fuel s w s' w' evs :
  "__proto__"%string ∉ map emailId (emailQueue s) ->
  processQueue fuel s w = Some (Val tt s' w', evs) ->
  (forall id, id ∉ map emailId (emailQueue s) -> status s' !! id = status s !! id) /\
  (forall id, id ∈ map emailId (emailQueue s) ->
     status s' !! id = Some sentOk \/ status s' !! id = Some allFailed).
Proof.
  intros _ H. apply processQueue_Drains in H.
  pose proof (Drains_status_values _ _ _ _ H) as Hvals.
  destruct (Drains_tables _ _ _ _ H s' w' eq_refl) as (_ & Hids & _ & Hst & _).
  rewrite Hst, Hids. split.
  - intros id Hid. by apply replay_lookup_notin.
  - intros id Hid. destruct (replay_lookup_in (status s) _ _ Hid) as (st & Hin & ->).
    rewrite Forall_forall in Hvals. destruct (Hvals _ Hin) as [Hv|Hv]; simpl in Hv; subst; auto.
Qed.

Lemma status_frame_witness :
  exists s' w' evs,
    processQueue 4 backlog epoch = Some (Val tt s' w', evs) /\
    status s' !! "z"%string = None /\
    status s' !! "a"%string = Some allFailed /\
    status s' !! "c"%string = Some sentOk.
Proof.
  destruct (processQueue 4 backlog epoch) as [[[[] s' w'|err s' w'] evs]|] eqn:E;
    try (vm_compute in E; discriminate E).
  destruct (status_frame 4 backlog epoch s' w' evs) as [Hout _].
  { simpl. rewrite !not_elem_of_cons.
    repeat split; try discriminate. apply not_elem_of_nil. }
  { exact E. }
  exists s', w', evs. split; [reflexivity|]. split.
  - rewrite Hout; [reflexivity|]. simpl. rewrite !not_elem_of_cons.
    repeat split; try discriminate. apply not_elem_of_nil.
  - vm_compute in E. inversion E. split; reflexivity.
Defined.



(** X15. [sendEmail] puts its entry at the end of the queue and drains the
    whole of it: from a well-formed service, with whatever backlog, the call
    returns only after a status has been written for every queued entry in
    order and then for the submitted id, and it leaves the queue empty. *)
Theorem sendEmail_drains_backlog id d s w :
  WellFormed s w ->
  id ∉ sentEmails s ->
  exists fuel0 s' w' evs,
    (forall fuel, fuel0 ≤ fuel ->
       sendEmail fuel id d s w = Some (Val RetUndefined s' w', evs)) /\
    (statusWrites evs).*1 = map emailId (emailQueue s) ++ [id] /\
    emailQueue s' = [].
Proof.
  intros Hwf Hid.
  set (s1 := setQueue (emailQueue s ++ [mkEntry id d]) s).
  assert (Hwf1 : WellFormed s1 w) by exact Hwf.
  destruct (processQueue_terminates s1 w Hwf1) as (fuel0 & s' & w' & evs & HD & Hf).
  destruct (Drains_tables _ _ _ _ HD s' w' eq_refl) as (Hq & Hids & _).
  exists fuel0, s', w', evs. split; [|split; [|done]].
  - intros fuel Hfuel. unfold sendEmail.
    destruct (decide (id ∈ sentEmails s)); [contradiction|]. fold s1. by rewrite Hf.
  - rewrite <- Hids. subst s1. simpl. by rewrite map_app.
Qed.

Lemma sendEmail_drains_backlog_witness :
  exists fuel0 s' w' evs,
    (forall fuel, fuel0 ≤ fuel ->
       sendEmail fuel "d" update backlog epoch = Some (Val RetUndefined s' w', evs)) /\
    (statusWrites evs).*1 = ["a"; "b"; "c"; "d"]%string /\
    emailQueue s' = [].
Proof.
  apply (sendEmail_drains_backlog "d" update backlog epoch).
  - unfold WellFormed. simpl. split; [lia|]. split; [lia|]. constructor.
  - simpl. apply not_elem_of_empty.
Defined.

(** ** The drain loop does not look at [sentEmails] *)

Lemma retryLoop_sentEmails X fuel : forall a id d s w,
  retryLoop fuel a id d (setSentEmails X s) w
  = onService (setSentEmails X) (retryLoop fuel a id d s w).
Proof.
  induction fuel as [|fuel IH]; intros a id d s w; [done|].
  cbn [retryLoop]. change (maxRetries (setSentEmails X s)) with (maxRetries s).
  destruct (a <? maxRetries s); [|done].
  change (providers (setSentEmails X s) !! currentProviderIndex (setSentEmails X s))
    with (providers s !! currentProviderIndex s).
  destruct (providers s !! currentProviderIndex s) as [p|] eqn:Hp; [|done].
  unfold callProvider.
  change (currentProviderIndex (setSentEmails X s)) with (currentProviderIndex s).
  destruct (tryBlock _); [|done].
  destruct (S a <? maxRetries s).
  - by rewrite IH, onService_prepend.
  - rewrite !switchProvider_inbounds by (simpl; eapply lookup_lt_Some; eauto).
    change (nextIndex (setSentEmails X s)) with (nextIndex s).
    change (setCursor (nextIndex s) (setSentEmails X s))
      with (setSentEmails X (setCursor (nextIndex s) s)).
    by rewrite IH, onService_prepend.
Qed.

(** X11. The drain loop never reads [sentEmails]: whatever that set holds,
    an iteration goes the same way, with the same events, at the same
    instants, and leaves the same queue, ledger, status table and cursor.  So
    an entry that is queued for an id already in [sentEmails] is sent to the
    provider again; only [sendEmail] checks the set, before it queues. *)
Theorem drain_ignores_sentEmails s w X :
  exists step step' evs,
    drainStep s w = Some (step, evs) /\
    drainStep (setSentEmails X s) w = Some (step', evs) /\
    stepWorld step' = stepWorld step /\
    emailQueue (stepService step') = emailQueue (stepService step) /\
    lastSentTimestamps (stepService step') = lastSentTimestamps (stepService step) /\
    status (stepService step') = status (stepService step) /\
    currentProviderIndex (stepService step') = currentProviderIndex (stepService step).
Proof.
  destruct (emailQueue s) as [|e rest] eqn:Hq.
  { exists (Done s w), (Done (setSentEmails X s) w), [].
    rewrite !drainStep_empty by done. done. }
  destruct (decide (length (recent (clock w) (lastSentTimestamps s)) < rateLimit s))
    as [Hl|Hl].
  - destruct (drainStep_admitted s w e rest Hq Hl) as (r & evs & Hrun & _ & Hd).
    destruct (drainStep_admitted (setSentEmails X s) w e rest Hq Hl)
      as (r' & evs' & Hrun' & _ & Hd').
    change (admitted rest (setSentEmails X s) w)
      with (setSentEmails X (admitted rest s w)) in Hrun'.
    unfold trySendWithRetries in Hrun, Hrun'.
    change (maxRetries (setSentEmails X (admitted rest s w)))
      with (maxRetries (admitted rest s w)) in Hrun'.
    rewrite retryLoop_sentEmails, Hrun in Hrun'.
    rewrite Hd, Hd'.
    destruct r as [st s3 w3|err s3 w3]; simpl in Hrun'; inversion Hrun'; subst r' evs';
      eexists _, _, _; (split; [reflexivity|]).
    + rewrite !recordOutcome_events. split; [reflexivity|].
      simpl. rewrite !recordOutcome_service. simpl. done.
    + split; [reflexivity|]. done.
  - assert (Hlim : rateLimit s ≤ length (recent (clock w) (lastSentTimestamps s))) by lia.
    eexists _, _, _. rewrite (drainStep_limited s w e rest Hq Hlim).
    rewrite (drainStep_limited (setSentEmails X s) w e rest Hq Hlim). done.
Qed.

Example queued_duplicate_is_sent_again :
  exists s' w',
    processQueue 2 (setQueue [mkEntry "dup" welcome] afterDup) afterDupWorld
    = Some (Val tt s' w',
            [EvShift "dup"; EvCall 0 welcome; EvSent "dup" 1700000000014;
             EvStatus "dup" sentOk]) /\
    lastSentTimestamps s' = [1700000000007; 1700000000014]%Z.
Proof. eexists _, _. vm_compute. split; reflexivity. Qed.

(** ** How many failures the retries mask, and how long they take *)

(** X16. If the provider under the cursor fails on the next [k] calls and
    delivers on the one after, with [k < maxRetries], then
    [trySendWithRetries] returns the success status after exactly [k + 1]
    calls and [k] backoff waits, and leaves the service, cursor included, as
    it was. *)
Theorem retries_mask_failures id d s w p k :
  providers s !! currentProviderIndex s = Some p ->
  k < maxRetries s ->
  (forall i, i < k -> failed (respond p (ncalls w + i) d)) ->
  outcome (respond p (ncalls w + k) d) = Delivered ->
  exists w',
    trySendWithRetries id d s w
    = Some (Val sentOk s w',
            failedAttempts (currentProviderIndex s) d 0 k ++ [EvCall (currentProviderIndex s) d]) /\
    ncalls w' = ncalls w + k + 1.
Proof.
  intros Hp Hk Hfail Hok.
  destruct (trySendWithRetries_run id d s w) as (r & evs & Hrun & Hshape).
  inversion Hshape; subst; try lia; try congruence;
    match goal with Hq : _ !! _ = Some ?p0 |- _ => rewrite Hp in Hq; inversion Hq; subst p0 end.
  - destruct (Nat.lt_trichotomy k0 k) as [Hlt|[->|Hgt]].
    + exfalso. by apply (Hfail k0).
    + exists w'. done.
    + exfalso. match goal with Hf : forall _, _ -> failed _ |- _ => by apply (Hf k) end.
  - exfalso. match goal with Hf : forall _, _ -> failed _ |- _ => apply (Hf k); [lia|done] end.
Qed.

(** Against a provider that faults on the first four calls of the run, a
    message with five attempts is delivered on the last one. *)
Lemma retries_mask_failures_witness :
  exists w',
    trySendWithRetries "m1" welcome (constructor [flaky 4 5 "Provider1"] 5 5) epoch
    = Some (Val sentOk (constructor [flaky 4 5 "Provider1"] 5 5) w',
            failedAttempts 0 welcome 0 4 ++ [EvCall 0 welcome]) /\
    ncalls w' = 0 + 4 + 1.
Proof.
  apply (retries_mask_failures "m1" welcome (constructor [flaky 4 5 "Provider1"] 5 5) epoch
           (flaky 4 5 "Provider1") 4).
  - reflexivity.
  - simpl. lia.
  - intros i Hi. unfold failed. simpl.
    destruct (i <? 4) eqn:E; [discriminate|]. apply Nat.ltb_ge in E. lia.
  - reflexivity.
Defined.

Lemma totalWait_app l1 l2 : totalWait (l1 ++ l2) = (totalWait l1 + totalWait l2)%Z.
Proof.
  unfold totalWait. rewrite waits_app.
  induction (waits l1) as [|t l IH]; simpl; lia.
Qed.

Lemma backoff_sum k : forall a,
  foldr Z.add 0%Z (map backoffTime (seq (S a) k))
  = (100 * (2 ^ Z.of_nat (a + k + 1) - 2 ^ Z.of_nat (a + 1)))%Z.
Proof.
  induction k as [|k IH]; intros a.
  - simpl. rewrite Nat.add_0_r. lia.
  - cbn [seq map foldr]. rewrite IH. unfold backoffTime.
    replace (Z.of_nat (S a + k + 1)) with (Z.of_nat (a + S k + 1)) by lia.
    replace (Z.of_nat (S a + 1)) with (Z.succ (Z.of_nat (a + 1))) by lia.
    replace (Z.of_nat (S a)) with (Z.of_nat (a + 1)) by lia.
    rewrite Z.pow_succ_r by lia. lia.
Qed.

Lemma failedAttempts_totalWait idx d k :
  totalWait (failedAttempts idx d 0 k) = (100 * (2 ^ Z.of_nat (k + 1) - 2))%Z.
Proof. unfold totalWait. rewrite failedAttempts_waits, backoff_sum. simpl. done. Qed.

Lemma totalDelay_app l1 l2 : totalDelay (l1 ++ l2) = (totalDelay l1 + totalDelay l2)%Z.
Proof.
  unfold totalDelay. rewrite waits_app, map_app.
  induction (map timerDelay (waits l1)) as [|t l IH]; simpl; lia.
Qed.

(** As long as no attempt beyond the 24th is followed by a wait, the timers
    take the time they were set for. *)
Lemma failedAttempts_totalDelay idx d k : forall a,
  a + k ≤ 24 ->
  totalDelay (failedAttempts idx d a k) = totalWait (failedAttempts idx d a k).
Proof.
  intros a Hk. unfold totalDelay, totalWait. rewrite failedAttempts_waits. f_equal.
  revert a Hk. induction k as [|k IH]; intros a Hk; [done|].
  cbn [seq map]. rewrite backoffTime_timer by lia. f_equal. apply IH. lia.
Qed.

(** The clock after the retry loop: what it was, plus the delays of the
    timers, plus the time the provider calls took. *)
Lemma retryLoop_elapsed fuel : forall a id d s w r evs p,
  retryLoop fuel a id d s w = Some (r, evs) ->
  providers s !! currentProviderIndex s = Some p ->
  clock (resultWorld r)
  = (clock w + totalDelay evs
     + totalLatency p d (ncalls w) (length (calledProviders evs)))%Z.
Proof.
  induction fuel as [|fuel IH]; intros a id d s w r evs p H Hp; simpl in H; [discriminate|].
  destruct (a <? maxRetries s) eqn:Ha.
  2:{ inversion H; subst. unfold totalDelay. simpl. lia. }
  rewrite Hp in H. unfold callProvider in H.
  destruct (tryBlock (outcome (respond p (ncalls w) d))) as [msg|].
  2:{ inversion H; subst. unfold totalDelay. simpl. lia. }
  destruct (S a <? maxRetries s) eqn:Ha'.
  - destruct (retryLoop fuel (S a) id d s _) as [[r' evs']|] eqn:Hrec; simpl in H; [|discriminate].
    inversion H; subst; clear H.
    rewrite (IH _ _ _ _ _ _ _ p Hrec Hp). unfold totalDelay. simpl. lia.
  - apply Nat.ltb_ge in Ha'.
    rewrite switchProvider_inbounds in H by (eapply lookup_lt_Some; eauto).
    destruct (retryLoop fuel (S a) id d _ _) as [[r' evs']|] eqn:Hrec; simpl in H; [|discriminate].
    inversion H; subst; clear H.
    apply retryLoop_run in Hrec. inversion Hrec; subst; simpl in *; try lia.
    unfold totalDelay. simpl. lia.
Qed.

(** X12. With a provider under the cursor and between 1 and 25 attempts
    allowed, so that every backoff is within the range of the timer, a call
    of [trySendWithRetries] that makes [n] provider calls has slept
    [100 * (2^n - 2)] ms in all (at most [100 * (2^maxRetries - 2)], 600 ms
    by default), and the clock has moved on by exactly that and the time the
    [n] calls took. *)
Theorem elapsed_time id d s w p :
  providers s !! currentProviderIndex s = Some p ->
  1 ≤ maxRetries s ≤ 25 ->
  exists r evs n,
    trySendWithRetries id d s w = Some (r, evs) /\
    n = length (calledProviders evs) /\
    1 ≤ n ≤ maxRetries s /\
    totalWait evs = (100 * (2 ^ Z.of_nat n - 2))%Z /\
    clock (resultWorld r) = (clock w + totalWait evs + totalLatency p d (ncalls w) n)%Z.
Proof.
  intros Hp Hm.
  destruct (trySendWithRetries_run id d s w) as (r & evs & Hrun & Hshape).
  exists r, evs, (length (calledProviders evs)). split; [exact Hrun|]. split; [done|].
  assert (Hd : totalDelay evs = totalWait evs).
  { inversion Hshape; subst; try lia; try congruence;
      rewrite totalDelay_app, totalWait_app, failedAttempts_totalDelay by lia; done. }
  split; [|split].
  - inversion Hshape; subst; try lia; try congruence;
      rewrite calledProviders_app, failedAttempts_calls, length_app, length_replicate;
      simpl; lia.
  - inversion Hshape; subst; try lia; try congruence;
      rewrite calledProviders_app, failedAttempts_calls, length_app, length_replicate,
        totalWait_app, failedAttempts_totalWait; unfold totalWait; simpl; lia.
  - rewrite <- Hd. eapply retryLoop_elapsed; eauto.
Qed.

Lemma elapsed_time_witness :
  exists r evs n,
    trySendWithRetries "m1" welcome (defaultService [faulting; backup]) epoch = Some (r, evs) /\
    n = length (calledProviders evs) /\
    1 ≤ n ≤ 3 /\
    totalWait evs = (100 * (2 ^ Z.of_nat n - 2))%Z /\
    clock (resultWorld r)
    = (1700000000000 + totalWait evs + totalLatency faulting welcome 0 n)%Z.
Proof.
  apply (elapsed_time "m1" welcome (defaultService [faulting; backup]) epoch faulting).
  - reflexivity.
  - simpl. lia.
Defined.

(** ** The mock provider *)

Lemma mockSendEmail_delivered m random d :
  mockSendEmail m random d = Delivered <-> (failureRate m <= random)%Q.
Proof.
  unfold mockSendEmail. destruct (Qlt_le_dec random (failureRate m)) as [Hlt|Hle].
  - split; [discriminate|]. intros Hle. exfalso. exact (Qle_not_lt _ _ Hle Hlt).
  - split; [done|done].
Qed.

(** X13. The mock provider never returns a rejection: a call throws the
    simulated failure when the draw is below the failure rate and delivers
    otherwise.  As [Math.random()] is at least 0 and below 1, a mock with a
    failure rate of 0 or less delivers every message on the first attempt,
    and against a mock with a failure rate of 1 or more every message
    exhausts its attempts and moves the cursor on. *)
Theorem mock_failure_rate m draws ms id d s w :
  providers s !! currentProviderIndex s = Some (mockProvider m draws ms) ->
  1 ≤ maxRetries s ->
  (forall n, (0 <= draws n)%Q /\ (draws n < 1)%Q) ->
  (forall random,
     (random < failureRate m)%Q /\ mockSendEmail m random d = Fault simulatedFailure \/
     (failureRate m <= random)%Q /\ mockSendEmail m random d = Delivered) /\
  ((failureRate m <= 0)%Q ->
   exists w',
     trySendWithRetries id d s w
     = Some (Val sentOk s w', [EvCall (currentProviderIndex s) d])) /\
  ((1 <= failureRate m)%Q ->
   exists w',
     trySendWithRetries id d s w
     = Some (Val allFailed (setCursor (nextIndex s) s) w',
             failedAttempts (currentProviderIndex s) d 0 (maxRetries s - 1)
               ++ [EvCall (currentProviderIndex s) d; EvSwitch (nextIndex s)])).
Proof.
  intros Hp Hm Hdraw. split; [|split].
  - intros random. unfold mockSendEmail.
    destruct (Qlt_le_dec random (failureRate m)); [left|right]; done.
  - intros Hrate.
    assert (Hok : forall n, outcome (respond (mockProvider m draws ms) n d) = Delivered).
    { intros n. simpl. apply mockSendEmail_delivered.
      eapply Qle_trans; [exact Hrate|]. apply Hdraw. }
    destruct (trySendWithRetries_run id d s w) as (r & evs & Hrun & Hshape).
    inversion Hshape; subst; try lia; try congruence;
      match goal with Hq : _ !! _ = Some ?p0 |- _ => rewrite Hp in Hq; inversion Hq; subst p0 end.
    + destruct k as [|k]; [exists w'; done|].
      exfalso. match goal with Hf : forall _, _ -> failed _ |- _ => apply (Hf 0); [lia|] end.
      apply Hok.
    + exfalso. match goal with Hf : forall _, _ -> failed _ |- _ => apply (Hf 0); [lia|] end.
      apply Hok.
  - intros Hrate.
    assert (Hfail : forall n, failed (respond (mockProvider m draws ms) n d)).
    { intros n. unfold failed. simpl. rewrite mockSendEmail_delivered. intros Hle.
      destruct (Hdraw n) as [_ Hlt1].
      apply (Qle_not_lt _ _ Hle). eapply Qlt_le_trans; [exact Hlt1|exact Hrate]. }
    destruct (trySendWithRetries_run id d s w) as (r & evs & Hrun & Hshape).
    destruct (RetryRun_exhausted _ _ _ _ _ _ Hshape Hp Hm) as [Hr Hevs]; [by intros; apply Hfail|].
    exists (resultWorld r). by rewrite Hrun, Hr at 1; subst evs.
Qed.

Lemma mock_failure_rate_witness :
  (forall random,
     (random < 0)%Q /\
       mockSendEmail (mkMock "Provider1" 0) random welcome = Fault simulatedFailure \/
     (0 <= random)%Q /\ mockSendEmail (mkMock "Provider1" 0) random welcome = Delivered) /\
  ((0 <= 0)%Q ->
   exists w',
     trySendWithRetries "m1" welcome
       (defaultService [mockProvider (mkMock "Provider1" 0) halves instant]) epoch
     = Some (Val sentOk (defaultService [mockProvider (mkMock "Provider1" 0) halves instant]) w',
             [EvCall 0 welcome])) /\
  ((1 <= 0)%Q ->
   exists w',
     trySendWithRetries "m1" welcome
       (defaultService [mockProvider (mkMock "Provider1" 0) halves instant]) epoch
     = Some (Val allFailed
               (setCursor 0 (defaultService [mockProvider (mkMock "Provider1" 0) halves instant]))
               w',
             failedAttempts 0 welcome 0 2 ++ [EvCall 0 welcome; EvSwitch 0])).
Proof.
  apply (mock_failure_rate (mkMock "Provider1" 0) halves instant "m1" welcome
           (defaultService [mockProvider (mkMock "Provider1" 0) halves instant]) epoch).
  - reflexivity.
  - simpl. lia.
  - intros n. split; [unfold Qle; simpl; lia|reflexivity].
Defined.

(** ** The example driver *)

Lemma backoffTime_not_poll i : backoffTime i ≠ 1000%Z.
Proof.
  unfold backoffTime. destruct (decide (i < 4)) as [Hlt|Hge].
  - do 4 (destruct i as [|i]; [simpl; lia|]). lia.
  - assert (2 ^ 4 <= 2 ^ Z.of_nat i)%Z by (apply Z.pow_le_mono_r; lia).
    change (2 ^ 4)%Z with 16%Z in *. lia.
Qed.

(** The retry loop never sleeps the polling interval of the rate limiter. *)
Lemma RetryRun_no_poll d s w a r evs :
  RetryRun d s w a r evs -> 1000%Z ∉ waits evs.
Proof.
  assert (Hfa : forall idx k, 1000%Z ∉ waits (failedAttempts idx d a k)).
  { intros idx k. rewrite failedAttempts_waits. intros Hin.
    apply list_elem_of_fmap in Hin as (i & Hi & _). symmetry in Hi.
    by apply backoffTime_not_poll in Hi. }
  intros H. inversion H; subst; simpl; try apply not_elem_of_nil;
    rewrite waits_app; simpl; rewrite app_nil_r; apply Hfa.
Qed.

(** What the events of a resolved entry show. *)
Lemma resolved_events id st s3 w3 d s w a r evs0 :
  RetryRun d s w a r evs0 ->
  let evs := EvShift id :: evs0 ++ (recordOutcome id st s3 w3).2 in
  statusWrites evs = [(id, st)] /\
  calledProviders evs = calledProviders evs0 /\
  waits evs = waits evs0 /\
  failureWrites evs = (if success st then [] else [(id, st)]).
Proof.
  intros Hrun evs. subst evs.
  destruct (RetryRun_quiet _ _ _ _ _ _ Hrun) as (_ & _ & Hq3 & _).
  rewrite (failureWrites_resolved _ _ _ Hq3), recordOutcome_events.
  change (EvShift id :: evs0 ++ ?l) with ([EvShift id] ++ evs0 ++ l).
  rewrite !statusWrites_app, !calledProviders_app, !waits_app, Hq3.
  unfold failureWrites. rewrite statusWrites_app.
  destruct (success st) eqn:Hs; simpl; rewrite ?app_nil_r, ?Hs; repeat split.
  - rewrite filter_cons_False; [done|]. simpl. congruence.
  - rewrite filter_cons_True; done.
Qed.

(** A submission that is admitted at once on an empty queue, with a valid
    cursor: it returns after two evaluations of the loop test, with the
    cursor moved on exactly when the message failed after an attempt. *)
Lemma sendEmail_admitted id d s w :
  CursorOk s ->
  1 ≤ maxRetries s ->
  id ∉ sentEmails s ->
  emailQueue s = [] ->
  length (recent (clock w) (lastSentTimestamps s)) < rateLimit s ->
  exists st c w3 evs0,
    RetryRun d (admitted [] s w) w 0 (Val st (setCursor c (admitted [] s w)) w3) evs0 /\
    (st = sentOk /\ c = currentProviderIndex s \/ st = allFailed /\ c = nextIndex s) /\
    forall fuel,
      sendEmail (S (S fuel)) id d s w
      = Some (Val RetUndefined
                (recordOutcome id st (setCursor c (admitted [] s w)) w3).1 w3,
              EvShift id :: evs0
                ++ (recordOutcome id st (setCursor c (admitted [] s w)) w3).2).
Proof.
  unfold CursorOk. intros Hj Hm Hid Hq Hl.
  destruct (trySendWithRetries_run id d (admitted [] s w) w) as (r & evs0 & Hrun & Hshape).
  pose proof (sendEmail_single id d s w _ _ Hid Hq Hl Hrun) as Hsend.
  inversion Hshape; subst.
  - match goal with Hle : maxRetries _ ≤ 0 |- _ => simpl in Hle; lia end.
  - match goal with Hnone : _ !! _ = None |- _ =>
      apply lookup_ge_None in Hnone; simpl in Hnone; lia end.
  - exists sentOk, (currentProviderIndex s), w'. eexists.
    replace (setCursor (currentProviderIndex s) (admitted [] s w)) with (admitted [] s w)
      by (symmetry; apply (setCursor_id (admitted [] s w))).
    split; [exact Hshape|]. split; [by left|exact Hsend].
  - exists allFailed, (nextIndex s), w'. eexists.
    split; [exact Hshape|]. split; [by right|exact Hsend].
Qed.

(** X14. Whatever the random draws and the time the provider calls take, the
    example driver runs to its end without an exception: both calls of
    [sendEmail] resolve to [undefined], the queue is empty, the status table
    holds a success or failure status for "email1" and for "email2" and
    nothing else, at most six provider calls were made, the rate limiter
    never made the loop poll, and the cursor has moved once per failed
    message. *)
Theorem example_usage_runs draws ms w fuel :
  exists st1 st2 s' w' evs,
    exampleUsage draws ms (S (S fuel)) w = Some (Val RetUndefined s' w', evs) /\
    statusWrites evs = [("email1"%string, st1); ("email2"%string, st2)] /\
    (st1 = sentOk \/ st1 = allFailed) /\
    (st2 = sentOk \/ st2 = allFailed) /\
    status s' = <["email2"%string := st2]> (<["email1"%string := st1]> ∅) /\
    emailQueue s' = [] /\
    length (calledProviders evs) ≤ 6 /\
    Forall (λ t, t ≠ 1000%Z) (waits evs) /\
    currentProviderIndex s' = length (failureWrites evs) mod 2.
Proof.
  set (svc := exampleService draws ms).
  destruct (sendEmail_admitted "email1" welcome svc w)
    as (st1 & c1 & w1 & evs1 & Hrun1 & Hc1 & Hsend1).
  { unfold CursorOk. simpl. lia. }
  { simpl. lia. }
  { simpl. apply not_elem_of_empty. }
  { reflexivity. }
  { simpl. lia. }
  set (s3 := setCursor c1 (admitted [] svc w)) in *.
  set (s1 := (recordOutcome "email1" st1 s3 w1).1).
  assert (Hs1 : s1 = mkService (providers svc) c1 3 5 (<["email1"%string := st1]> ∅)
                  (if success st1 then {["email1"%string]} ∪ ∅ else ∅) []
                  (if success st1 then [clock w1] else [])).
  { subst s1. rewrite recordOutcome_service. reflexivity. }
  assert (Hc1lt : c1 < 2).
  { destruct Hc1 as [[_ ->]|[_ ->]]; vm_compute; lia. }
  destruct (sendEmail_admitted "email2" update s1 w1)
    as (st2 & c2 & w2 & evs2 & Hrun2 & Hc2 & Hsend2).
  { rewrite Hs1. unfold CursorOk. simpl. lia. }
  { rewrite Hs1. simpl. lia. }
  { rewrite Hs1. simpl. destruct (success st1); [|apply not_elem_of_empty].
    rewrite not_elem_of_union, not_elem_of_singleton. split; [discriminate|].
    apply not_elem_of_empty. }
  { rewrite Hs1. reflexivity. }
  { rewrite Hs1. simpl.
    match goal with |- length (recent ?now ?l) < _ =>
      pose proof (recent_length now l) as Hlen end.
    destruct (success st1); [simpl in Hlen; lia|vm_compute; lia]. }
  set (s5 := setCursor c2 (admitted [] s1 w1)) in *.
  exists st1, st2, (recordOutcome "email2" st2 s5 w2).1, w2.
  eexists. unfold exampleUsage. fold svc. rewrite Hsend1. fold s1. rewrite Hsend2.
  cbn [prepend].
  destruct (resolved_events "email1" st1 s3 w1 _ _ _ _ _ _ Hrun1) as (Hw1 & Hcp1 & Hwt1 & Hf1).
  destruct (resolved_events "email2" st2 s5 w2 _ _ _ _ _ _ Hrun2) as (Hw2 & Hcp2 & Hwt2 & Hf2).
  pose proof (RetryRun_calls _ _ _ _ _ Hrun1) as Hn1.
  pose proof (RetryRun_calls _ _ _ _ _ Hrun2) as Hn2.
  pose proof (RetryRun_no_poll _ _ _ _ _ _ Hrun1) as Hp1.
  pose proof (RetryRun_no_poll _ _ _ _ _ _ Hrun2) as Hp2.
  rewrite Hs1 in Hn2. simpl in Hn1, Hn2.
  split; [reflexivity|].
  rewrite statusWrites_app, calledProviders_app, waits_app, failureWrites_app.
  rewrite Hw1, Hw2, Hcp1, Hcp2, Hwt1, Hwt2, Hf1, Hf2, !length_app.
  split; [reflexivity|].
  split; [destruct Hc1 as [[? _]|[? _]]; auto|].
  split; [destruct Hc2 as [[? _]|[? _]]; auto|].
  split; [rewrite recordOutcome_service; subst s5; rewrite Hs1; reflexivity|].
  split; [rewrite recordOutcome_service; subst s5; rewrite Hs1; reflexivity|].
  split; [lia|].
  split; [apply Forall_forall; intros t Ht ->; by apply elem_of_app in Ht as [?|?]|].
  rewrite recordOutcome_service. subst s5. simpl.
  assert (Hnext : nextIndex s1 = (c1 + 1) mod 2) by (rewrite Hs1; reflexivity).
  destruct Hc1 as [[-> ->]|[-> ->]], Hc2 as [[-> ->]|[-> ->]];
    rewrite ?Hnext, ?Hs1; reflexivity.
Qed.

(** ** Awaited calls in the runtime *)

Lemma pending_settled (f : nat -> nat) l :
  Forall settled l ->
  omap (λ x : nat * Call, match x.2 with
             | Suspended k due ticket => Some (x.1, (due, rank k, ticket))
             | _ => None
             end) (imap (λ i y, (f i, y)) l) = [].
Proof.
  intros H. revert f. induction H as [|x l Hx _ IH]; intros f; [done|].
  simpl. destruct x; simpl in *; try done; apply (IH (f ∘ S)).
Qed.

Lemma nextCall_settled rt : Forall settled (calls rt) -> nextCall rt = None.
Proof.
  intros H. assert (E : pending rt = []) by exact (pending_settled (λ i, i) _ H).
  unfold nextCall. by rewrite E.
Qed.

Lemma nextCall_last rt pre k due t :
  calls rt = pre ++ [Suspended k due t] ->
  Forall settled pre ->
  nextCall rt = Some (length pre).
Proof.
  intros Hc Hpre.
  assert (E : pending rt = [(length pre, (due, rank k, t))]).
  { unfold pending. rewrite Hc, imap_app, omap_app.
    assert (E : omap (λ x : nat * Call, match x.2 with
                       | Suspended k due ticket => Some (x.1, (due, rank k, ticket))
                       | _ => None
                       end) (imap pair pre) = [])
      by exact (pending_settled (λ i, i) _ Hpre).
    rewrite E. simpl. by rewrite Nat.add_0_r. }
  unfold nextCall. by rewrite E.
Qed.

Lemma Resumes_eventLoop n rt rt' :
  Resumes n rt rt' -> forall f, eventLoop (n + f) rt = eventLoop f rt'.
Proof.
  induction 1 as [rt|n c rt rt' Hc _ IH]; intros f; [done|].
  simpl. rewrite Hc. apply IH.
Qed.

Lemma Resumes_trans n m rt1 rt2 rt3 :
  Resumes n rt1 rt2 -> Resumes m rt2 rt3 -> Resumes (n + m) rt1 rt3.
Proof.
  induction 1 as [rt|n c rt rt' Hc _ IH]; intros H; [done|].
  simpl. econstructor; eauto.
Qed.

Lemma eventLoop_settled f rt : Forall settled (calls rt) -> eventLoop f rt = Some rt.
Proof. intros H. destruct f; simpl; by rewrite nextCall_settled. Qed.

Lemma Logged_refl c rt : Logged c rt rt [].
Proof. split; by rewrite app_nil_r. Qed.

Lemma Logged_trans c rt1 rt2 rt3 evs1 evs2 :
  Logged c rt1 rt2 evs1 -> Logged c rt2 rt3 evs2 -> Logged c rt1 rt3 (evs1 ++ evs2).
Proof. intros [H1 H2] [H3 H4]. split; [rewrite H3, H1|rewrite H4, H2]; by rewrite app_assoc. Qed.

Lemma eventsOf_emit c evs rt : eventsOf c (emit c evs rt) = eventsOf c rt ++ evs.
Proof. unfold eventsOf, emit. simpl. by rewrite omap_app, eventsOf_stamped. Qed.

Lemma allEvents_emit c evs rt : allEvents (emit c evs rt) = allEvents rt ++ evs.
Proof.
  unfold allEvents, emit. simpl. rewrite map_app, map_map. simpl. by rewrite map_id.
Qed.

Lemma Logged_emit c evs rt : Logged c rt (emit c evs rt) evs.
Proof. split; [apply allEvents_emit|apply eventsOf_emit]. Qed.

Lemma Logged_emit_on c evs rt rt0 :
  history rt0 = history rt -> Logged c rt (emit c evs rt0) evs.
Proof.
  intros H. destruct (Logged_emit c evs rt0) as [H1 H2].
  unfold Logged, allEvents, eventsOf in *. by rewrite <- H.
Qed.

(** Same log: the runtimes differ in other fields only. *)
Lemma Logged_same c rt rt' rt'' evs :
  history rt'' = history rt' -> Logged c rt rt' evs -> Logged c rt rt'' evs.
Proof. intros H [H1 H2]. unfold Logged, allEvents, eventsOf in *. by rewrite H. Qed.

Lemma insert_last {A} (pre : list A) x y : <[length pre := y]> (pre ++ [x]) = pre ++ [y].
Proof. rewrite insert_app_r_alt by lia. by rewrite Nat.sub_diag. Qed.

Lemma switchProvider_world s w r evs :
  switchProvider s w = (r, evs) -> resultWorld r = w.
Proof.
  unfold switchProvider. destruct (_ !! _); intros H; inversion H; done.
Qed.

Lemma world_eta (w : World) c : c = clock w -> mkWorld c (ncalls w) = w.
Proof. intros ->. by destruct w. Qed.

(** A call that runs alone, from the loop test of [trySendWithRetries]:
    resumed at each of its [await]s it does what [retryLoop] does, and stops
    at the [await] of [processQueue] with the status [retryLoop] returned,
    or rejected with the error [retryLoop] threw. *)
Lemma retryLoop_resumes fuel : forall a id d rt pre x r evs,
  calls rt = pre ++ [x] ->
  Forall settled pre ->
  (forall n, messageless rt n = false) ->
  retryLoop fuel a id d (service rt) (world rt) = Some (r, evs) ->
  exists n rt' y,
    Resumes n (attemptFrom (length pre) id d a rt) rt' /\
    service rt' = resultService r /\
    world rt' = resultWorld r /\
    messageless rt' = messageless rt /\
    calls rt' = pre ++ [y] /\
    Logged (length pre) rt rt' evs /\
    match r with
    | Val st _ _ => exists ticket, y = Suspended (AwaitStatus id st) (clock (resultWorld r)) ticket
    | Exn err _ _ => y = Threw err
    end.
Proof.
  induction fuel as [|fuel IH]; intros a id d rt pre x r evs Hcalls Hpre Hml H;
    [discriminate|].
  cbn [retryLoop] in H. unfold attemptFrom.
  assert (Hins : forall y z, <[length pre := y]> (pre ++ [z]) = pre ++ [y])
    by (intros; apply insert_last).
  set (c := length pre) in *.
  destruct (a <? maxRetries (service rt)) eqn:Ha.
  2:{ inversion H; subst r evs. eexists 0, _, _. split; [constructor|].
      simpl. rewrite Hcalls, Hins. repeat split; eauto.
      - by rewrite app_nil_r.
      - by rewrite app_nil_r. }
  destruct (providers (service rt) !! currentProviderIndex (service rt)) as [p|] eqn:Hp.
  2:{ inversion H; subst r evs. eexists 0, _, _. split; [constructor|].
      simpl. rewrite Hcalls, Hins. repeat split; eauto.
      - by rewrite app_nil_r.
      - by rewrite app_nil_r. }
  unfold callProvider in H. rewrite Hml.
  set (r0 := respond p (ncalls (world rt)) d) in *.
  set (w1 := mkWorld (clock (world rt) + Z.of_N (latency r0))%Z (S (ncalls (world rt)))) in *.
  set (call := EvCall (currentProviderIndex (service rt)) d) in *.
  match goal with |- context [Resumes _ ?rt0 _] => set (rt1 := rt0) end.
  assert (Hc1 : calls rt1 = pre ++ [Suspended (AwaitProvider id d a r0 false)
                                      (clock (world rt) + Z.of_N (latency r0)) (tickets rt)]).
  { subst rt1. simpl. by rewrite Hcalls, Hins. }
  (* the call is resumed when the provider has answered *)
  set (rt1' := setWorld w1 rt1).
  assert (Hres1 : resume c rt1 = afterProvider c id d a r0 false rt1').
  { unfold resume. rewrite Hc1. subst c. rewrite lookup_last. subst rt1' w1.
    f_equal. f_equal. subst rt1. simpl. f_equal. lia. }
  assert (Hlog1 : Logged c rt rt1' [call]).
  { eapply Logged_same; [|apply (Logged_emit c [call] rt)]. done. }
  unfold afterProvider in Hres1.
  destruct (tryBlock (outcome r0)) as [msg|] eqn:Htry.
  2:{ inversion H; subst r evs. eexists 1, _, _.
      split; [apply (ResumesNext 0 c); [exact (nextCall_last _ _ _ _ _ Hc1 Hpre)|];
              rewrite Hres1; constructor|].
      simpl. rewrite Hcalls, !Hins. repeat split; eauto; apply Hlog1. }
  change (maxRetries (service rt1')) with (maxRetries (service rt)) in Hres1.
  destruct (S a <? maxRetries (service rt)) eqn:Ha'.
  - (* backoff, and the next attempt *)
    set (t := backoffTime (S a)) in *.
    destruct (retryLoop fuel (S a) id d (service rt) (sleep t w1)) as [[r' evs']|] eqn:Hrec;
      simpl in H; [|discriminate]. inversion H; subst r evs. clear H.
    match type of Hres1 with _ = ?rt0 => set (rt2 := rt0) in * end.
    assert (Hc2 : calls rt2 = pre ++ [Suspended (AwaitBackoff id d (S a))
                                        (clock w1 + timerDelay t) (tickets rt1')]).
    { subst rt2. simpl. by rewrite Hcalls, !Hins. }
    set (rt2' := setWorld (sleep t w1) rt2).
    assert (Hres2 : resume c rt2 = attemptFrom c id d (S a) rt2').
    { unfold resume. rewrite Hc2. subst c. rewrite lookup_last. subst rt2'.
      f_equal. f_equal. subst rt2. simpl. unfold sleep. simpl. f_equal.
      pose proof (timerDelay_pos t). lia. }
    destruct (IH (S a) id d rt2' pre _ r' evs' Hc2 Hpre Hml Hrec)
      as (n & rt' & y & Hrun & Hs & Hw & Hm & Hc' & Hlog & Hy).
    exists (2 + n), rt', y. split.
    { apply (ResumesNext _ c); [exact (nextCall_last _ _ _ _ _ Hc1 Hpre)|]. rewrite Hres1.
      apply (ResumesNext _ c); [exact (nextCall_last _ _ _ _ _ Hc2 Hpre)|].
      rewrite Hres2. exact Hrun. }
    split; [done|]. split; [done|]. split; [done|]. split; [done|]. split; [|done].
    change (call :: EvSleep t :: evs') with ([call] ++ [EvSleep t] ++ evs').
    eapply Logged_trans; [exact Hlog1|]. eapply Logged_trans; [|exact Hlog].
    eapply Logged_same; [|apply (Logged_emit c [EvSleep t] rt1')]. done.
  - (* the last attempt allowed: the cursor moves on *)
    change (service rt1') with (service rt) in Hres1.
    change (world rt1') with w1 in Hres1.
    destruct (switchProvider (service rt) w1) as [[[] s' w'|err s' w'] evs0] eqn:Hsw.
    + pose proof (switchProvider_world _ _ _ _ Hsw) as Hw'. simpl in Hw'. subst w'.
      destruct (retryLoop fuel (S a) id d s' w1) as [[r' evs']|] eqn:Hrec;
        simpl in H; [|discriminate]. inversion H; subst r evs. clear H.
      set (rt2 := emit c evs0 (setService s' rt1')) in *.
      assert (Hc2 : calls rt2 = pre ++ [Suspended (AwaitProvider id d a r0 false)
                                      (clock (world rt) + Z.of_N (latency r0)) (tickets rt)])
        by exact Hc1.
      destruct (IH (S a) id d rt2 pre _ r' evs' Hc2 Hpre Hml Hrec)
        as (n & rt' & y & Hrun & Hs & Hw & Hm & Hc' & Hlog & Hy).
      exists (1 + n), rt', y. split.
      { apply (ResumesNext _ c); [exact (nextCall_last _ _ _ _ _ Hc1 Hpre)|].
        rewrite Hres1. exact Hrun. }
      split; [done|]. split; [done|]. split; [done|]. split; [done|]. split; [|done].
      change (call :: evs0 ++ evs') with ([call] ++ evs0 ++ evs').
      eapply Logged_trans; [exact Hlog1|]. eapply Logged_trans; [|exact Hlog].
      eapply Logged_same; [|apply (Logged_emit c evs0 rt1')]. done.
    + pose proof (switchProvider_world _ _ _ _ Hsw) as Hw'. simpl in Hw'. subst w'.
      inversion H; subst r evs. clear H.
      eexists 1, _, _.
      split; [apply (ResumesNext 0 c); [exact (nextCall_last _ _ _ _ _ Hc1 Hpre)|];
              rewrite Hres1; constructor|].
      split; [reflexivity|]. split; [reflexivity|]. split; [reflexivity|].
      split; [simpl; by rewrite Hcalls, !Hins|]. split; [|reflexivity].
      change (call :: evs0) with ([call] ++ evs0).
      eapply Logged_trans; [exact Hlog1|].
      eapply Logged_same; [|apply (Logged_emit c evs0 rt1')]. done.
Qed.

(** The three ways [drainStep] goes, with the run of the retry loop spelled
    out. *)
Lemma drainStep_cases s w :
  (emailQueue s = [] /\ drainStep s w = Some (Done s w, [])) \/
  (exists e rest,
     emailQueue s = e :: rest /\
     rateLimit s ≤ length (recent (clock w) (lastSentTimestamps s)) /\
     drainStep s w
     = Some (Again (setLedger (recent (clock w) (lastSentTimestamps s)) s) (sleep 1000 w),
             [EvSleep 1000])) \/
  (exists e rest r evs,
     emailQueue s = e :: rest /\
     length (recent (clock w) (lastSentTimestamps s)) < rateLimit s /\
     trySendWithRetries (emailId e) (emailDetails e) (admitted rest s w) w = Some (r, evs) /\
     drainStep s w =
     Some match r with
          | Val st s3 w3 =>
            (Again (recordOutcome (emailId e) st s3 w3).1 w3,
             EvShift (emailId e) :: evs ++ (recordOutcome (emailId e) st s3 w3).2)
          | Exn err s3 w3 => (Raised err s3 w3, EvShift (emailId e) :: evs)
          end).
Proof.
  destruct (emailQueue s) as [|e rest] eqn:Hq.
  { left. split; [done|]. by apply drainStep_empty. }
  right.
  destruct (decide (length (recent (clock w) (lastSentTimestamps s)) < rateLimit s))
    as [Hl|Hl].
  - right. destruct (drainStep_admitted s w e rest Hq Hl) as (r & evs & Hrun & _ & Hd).
    by exists e, rest, r, evs.
  - left. exists e, rest. split; [done|]. split; [lia|]. apply (drainStep_limited s w e rest Hq).
    lia.
Qed.

Lemma drainFrom_empty c rt :
  emailQueue (service rt) = [] -> drainFrom c rt = settle c (Resolved RetUndefined) rt.
Proof. intros Hq. unfold drainFrom. by rewrite Hq. Qed.

Lemma drainFrom_limited c rt e rest :
  emailQueue (service rt) = e :: rest ->
  rateLimit (service rt) ≤ length (recent (clock (world rt)) (lastSentTimestamps (service rt))) ->
  drainFrom c rt
  = suspend c AwaitPoll (clock (world rt) + timerDelay 1000)
      (emit c [EvSleep 1000]
         (setService (setLedger (recent (clock (world rt)) (lastSentTimestamps (service rt)))
                        (service rt)) rt)).
Proof.
  intros Hq Hl. unfold drainFrom. rewrite Hq.
  cbn -[recent attemptFrom suspend emit]. apply Nat.leb_le in Hl. by rewrite Hl.
Qed.

Lemma drainFrom_admitted c rt e rest :
  emailQueue (service rt) = e :: rest ->
  length (recent (clock (world rt)) (lastSentTimestamps (service rt))) < rateLimit (service rt) ->
  drainFrom c rt
  = attemptFrom c (emailId e) (emailDetails e) 0
      (emit c [EvShift (emailId e)]
         (setService (admitted rest (service rt) (world rt)) rt)).
Proof.
  intros Hq Hl. unfold drainFrom. rewrite Hq.
  cbn -[recent attemptFrom suspend emit]. apply Nat.leb_gt in Hl. by rewrite Hl, Hq.
Qed.

(** A call that runs alone, from the loop test of [processQueue]: resumed
    at each of its [await]s it does what the drain loop does, and comes to
    its end as the drain loop does. *)
Lemma Drains_resumes s w r evs :
  Drains s w r evs ->
  forall rt pre x,
    service rt = s ->
    world rt = w ->
    calls rt = pre ++ [x] ->
    Forall settled pre ->
    (forall n, messageless rt n = false) ->
    exists n rt',
      Resumes n (drainFrom (length pre) rt) rt' /\
      service rt' = resultService r /\
      world rt' = resultWorld r /\
      messageless rt' = messageless rt /\
      calls rt' = pre ++ [match r with
                          | Val _ _ _ => Resolved RetUndefined
                          | Exn err _ _ => Threw err
                          end] /\
      Logged (length pre) rt rt' evs.
Proof.
  induction 1 as [s w s1 w1 evs H|s w err s1 w1 evs H|s w s1 w1 evs1 r evs H HD IH];
    intros rt pre x Hs Hw Hcalls Hpre Hml; subst s w;
    assert (Hins : forall y z, <[length pre := y]> (pre ++ [z]) = pre ++ [y])
      by (intros; apply insert_last);
    set (c := length pre) in *;
    destruct (drainStep_cases (service rt) (world rt))
      as [[Hq Hd]|[(e & rest & Hq & Hl & Hd)|(e & rest & r0 & evs0 & Hq & Hl & Hrun & Hd)]];
    rewrite Hd in H; try discriminate H.
  - (* the queue is empty *)
    inversion H; subst s1 w1 evs. exists 0, (settle c (Resolved RetUndefined) rt).
    split; [rewrite drainFrom_empty by done; apply ResumesNone|].
    split; [done|]. split; [done|]. split; [done|].
    split; [simpl; by rewrite Hcalls, Hins|].
    eapply Logged_same; [|apply Logged_refl]. done.
  - destruct r0 as [st s3 w3|err0 s3 w3]; discriminate H.
  - (* the retry loop threw *)
    destruct r0 as [st s3 w3|err0 s3 w3]; inversion H; subst err s1 w1 evs.
    set (rt1 := emit c [EvShift (emailId e)]
                  (setService (admitted rest (service rt) (world rt)) rt)).
    destruct (retryLoop_resumes (S (maxRetries (service rt))) 0 (emailId e) (emailDetails e)
                rt1 pre x _ _ Hcalls Hpre Hml Hrun)
      as (n & rt' & y & Hres & Hs' & Hw' & Hm' & Hc' & Hlog & Hy).
    exists n, rt'. split.
    { rewrite (drainFrom_admitted c rt e rest Hq Hl). exact Hres. }
    split; [done|]. split; [done|]. split; [done|]. split; [by rewrite Hc', Hy|].
    change (EvShift (emailId e) :: evs0) with ([EvShift (emailId e)] ++ evs0).
    eapply Logged_trans; [|exact Hlog]. by apply Logged_emit_on.
  - (* the rate limiter makes the loop poll *)
    inversion H; subst s1 w1 evs1. clear H.
    set (s1 := setLedger (recent (clock (world rt)) (lastSentTimestamps (service rt)))
                 (service rt)) in *.
    set (rt1 := suspend c AwaitPoll (clock (world rt) + timerDelay 1000)
                  (emit c [EvSleep 1000] (setService s1 rt))).
    set (rt1' := setWorld (sleep 1000 (world rt)) rt1).
    assert (Hc1 : calls rt1 = pre ++ [Suspended AwaitPoll (clock (world rt) + timerDelay 1000)
                                        (tickets rt)]).
    { subst rt1. simpl. by rewrite Hcalls, Hins. }
    assert (Hres1 : resume c rt1 = drainFrom c rt1').
    { unfold resume. rewrite Hc1. subst c. rewrite lookup_last. subst rt1'.
      f_equal. f_equal. subst rt1. simpl. unfold sleep. f_equal.
      pose proof (timerDelay_pos 1000). lia. }
    destruct (IH rt1' pre _ eq_refl eq_refl Hc1 Hpre Hml)
      as (n & rt' & Hres & Hs' & Hw' & Hm' & Hc' & Hlog).
    exists (S n), rt'. split.
    { rewrite (drainFrom_limited c rt e rest Hq Hl). fold s1. fold rt1.
      apply (ResumesNext _ c); [exact (nextCall_last _ _ _ _ _ Hc1 Hpre)|].
      rewrite Hres1. exact Hres. }
    split; [done|]. split; [done|]. split; [done|]. split; [done|].
    change (EvSleep 1000 :: evs) with ([EvSleep 1000] ++ evs).
    eapply Logged_trans; [|exact Hlog].
    eapply Logged_same; [|apply (Logged_emit c [EvSleep 1000] rt)]. done.
  - (* the head is popped and resolved *)
    destruct r0 as [st s3 w3|err0 s3 w3]; inversion H; subst s1 w1 evs1. clear H.
    set (rt1 := emit c [EvShift (emailId e)]
                  (setService (admitted rest (service rt) (world rt)) rt)).
    destruct (retryLoop_resumes (S (maxRetries (service rt))) 0 (emailId e) (emailDetails e)
                rt1 pre x _ _ Hcalls Hpre Hml Hrun)
      as (n & rt2 & y & Hres & Hs2 & Hw2 & Hm2 & Hc2 & Hlog2 & ticket & Hy).
    subst y. simpl in Hs2, Hw2.
    set (rec := recordOutcome (emailId e) st s3 w3).
    set (rt3 := emit c rec.2 (setService rec.1 rt2)).
    assert (Hres3 : resume c rt2 = drainFrom c rt3).
    { assert (Hsame : setWorld (mkWorld (Z.max (clock (world rt2)) (clock w3))
                                  (ncalls (world rt2))) rt2 = rt2).
      { rewrite Hw2, Z.max_id. unfold setWorld. rewrite (world_eta w3 _ eq_refl).
        rewrite <- Hw2. by destruct rt2. }
      unfold resume. rewrite Hc2. subst c. rewrite lookup_last. simpl resultWorld.
      rewrite Hsame, Hs2, Hw2. fold rec. subst rt3. by destruct rec. }
    destruct (IH rt3 pre (Suspended (AwaitStatus (emailId e) st) (clock w3) ticket))
      as (m & rt' & Hres' & Hs' & Hw' & Hm' & Hc' & Hlog');
      [done|done|exact Hc2|done
      |intros n0; change (messageless rt3) with (messageless rt2); rewrite Hm2; apply Hml|].
    exists (n + S m), rt'. split.
    { rewrite (drainFrom_admitted c rt e rest Hq Hl).
      eapply Resumes_trans; [exact Hres|].
      apply (ResumesNext _ c); [exact (nextCall_last _ _ _ _ _ Hc2 Hpre)|].
      rewrite Hres3. exact Hres'. }
    split; [done|]. split; [done|].
    split; [rewrite Hm'; change (messageless rt3) with (messageless rt2); by rewrite Hm2|].
    split; [done|].
    change (EvShift (emailId e) :: evs0 ++ rec.2)
      with ([EvShift (emailId e)] ++ evs0 ++ rec.2).
    rewrite <- !app_assoc.
    eapply Logged_trans; [by apply Logged_emit_on|].
    eapply Logged_trans; [exact Hlog2|].
    eapply Logged_trans; [|exact Hlog'].
    eapply Logged_same; [|apply (Logged_emit c rec.2 rt2)]. done.
Qed.

Lemma settled_ended r : settled (ended r).
Proof. by destruct r. Qed.

(** X17. A call of [sendEmail] that is awaited, made while no other call is
    under way and answered by providers that throw nothing but errors with
    a message, does in the runtime what [sendEmail] does as a function of
    the service and the world: resumed by the event loop until it ends, it
    leaves the same service and world, it resolves to the same value or is
    rejected with the same error, and it leaves the same events. *)
Theorem awaited_call_agrees fuel id d rt r evs :
  Forall settled (calls rt) ->
  (forall n, messageless rt n = false) ->
  sendEmail fuel id d (service rt) (world rt) = Some (r, evs) ->
  exists fuel0 rt',
    (forall f, fuel0 ≤ f -> eventLoop f (startSendEmail id d rt) = Some rt') /\
    service rt' = resultService r /\
    world rt' = resultWorld r /\
    calls rt' = calls rt ++ [ended r] /\
    allEvents rt' = allEvents rt ++ evs /\
    eventsOf (length (calls rt)) rt' = eventsOf (length (calls rt)) rt ++ evs.
Proof.
  intros Hpre Hml H. unfold sendEmail in H. unfold startSendEmail. simpl.
  destruct (decide (id ∈ sentEmails (service rt))) as [Hin|Hin].
  - inversion H; subst r evs. eexists 0, _. split.
    + intros f _. apply eventLoop_settled. simpl. rewrite insert_last.
      apply Forall_app. split; [done|]. by constructor.
    + simpl. rewrite insert_last, !app_nil_r. done.
  - destruct (processQueue fuel _ (world rt)) as [[r' evs']|] eqn:Hrun; [|discriminate].
    apply processQueue_Drains in Hrun.
    match goal with |- context [drainFrom _ ?rt0] => set (rt1 := rt0) end.
    destruct (Drains_resumes _ _ _ _ Hrun rt1 (calls rt) Running eq_refl eq_refl eq_refl
                Hpre Hml) as (n & rt' & Hres & Hs & Hw & _ & Hc & Hlog1 & Hlog2).
    assert (Hr : resultService r = resultService r' /\ resultWorld r = resultWorld r' /\
                 ended r = match r' with
                           | Val _ _ _ => Resolved RetUndefined
                           | Exn err _ _ => Threw err
                           end /\ evs = evs').
    { destruct r' as [[] s2 w2|err s2 w2]; inversion H; done. }
    destruct Hr as (-> & -> & -> & ->).
    exists n, rt'. split; [|done].
    intros f Hf. replace f with (n + (f - n)) by lia.
    rewrite (Resumes_eventLoop _ _ _ Hres). apply eventLoop_settled. rewrite Hc.
    apply Forall_app. split; [done|]. constructor; [|done]. by destruct r'.
Qed.

Lemma awaited_call_agrees_witness :
  exists fuel0 rt',
    (forall f, fuel0 ≤ f ->
       eventLoop f (startSendEmail "m1" welcome
                      (boot (defaultService [faulting; backup]) epoch errorsOnly)) = Some rt') /\
    service rt' = afterFailure /\
    world rt' = afterFailureWorld /\
    calls rt' = [Resolved RetUndefined] /\
    allEvents rt'
      = [EvShift "m1"; EvCall 0 welcome; EvSleep 200; EvCall 0 welcome; EvSleep 400;
         EvCall 0 welcome; EvSwitch 1; EvStatus "m1" allFailed] /\
    eventsOf 0 rt'
      = [EvShift "m1"; EvCall 0 welcome; EvSleep 200; EvCall 0 welcome; EvSleep 400;
         EvCall 0 welcome; EvSwitch 1; EvStatus "m1" allFailed].
Proof.
  apply (awaited_call_agrees 2 "m1" welcome
           (boot (defaultService [faulting; backup]) epoch errorsOnly)
           (Val RetUndefined afterFailure afterFailureWorld)).
  - constructor.
  - reflexivity.
  - vm_compute. reflexivity.
Defined.

(** ** The configuration and the cursor, in any order of the calls *)

Lemma Configured_same s0 rt rt' :
  providers (service rt') = providers (service rt) ->
  maxRetries (service rt') = maxRetries (service rt) ->
  rateLimit (service rt') = rateLimit (service rt) ->
  currentProviderIndex (service rt') = currentProviderIndex (service rt) ->
  Configured s0 rt -> Configured s0 rt'.
Proof. intros H1 H2 H3 H4 (? & ? & ? & ?). unfold Configured. rewrite H1, H2, H3, H4. done. Qed.

Lemma Configured_attemptFrom s0 c id d a rt :
  Configured s0 rt -> Configured s0 (attemptFrom c id d a rt).
Proof.
  intros H. unfold attemptFrom.
  destruct (a <? maxRetries (service rt)); [|done].
  destruct (providers (service rt) !! currentProviderIndex (service rt)); done.
Qed.

Lemma Configured_drainFrom s0 c rt :
  Configured s0 rt -> Configured s0 (drainFrom c rt).
Proof.
  intros H. unfold drainFrom.
  destruct (length (emailQueue (service rt)) =? 0); [done|].
  set (s1 := setLedger _ (service rt)).
  destruct (rateLimit s1 <=? length (lastSentTimestamps s1)); [done|].
  destruct (emailQueue s1) as [|entry rest]; [done|].
  by apply Configured_attemptFrom.
Qed.

Lemma Configured_afterProvider s0 c id d a r bare rt :
  Configured s0 rt -> Configured s0 (afterProvider c id d a r bare rt).
Proof.
  intros H. unfold afterProvider.
  destruct bare; [done|].
  destruct (tryBlock (outcome r)); [|done].
  destruct (S a <? maxRetries (service rt)); [done|].
  assert (H' : Configured s0
            (setService (setCursor (nextIndex (service rt)) (service rt)) rt)).
  { destruct H as (Hp & Hm & Hr & Hj). split; [done|]. split; [done|]. split; [done|].
    simpl. unfold nextIndex. rewrite Hp. apply Nat.mod_upper_bound. lia. }
  unfold switchProvider. fold (nextIndex (service rt)).
  destruct (providers _ !! _); [by apply Configured_attemptFrom|done].
Qed.

Lemma Configured_resume s0 c rt : Configured s0 rt -> Configured s0 (resume c rt).
Proof.
  intros H. unfold resume.
  destruct (calls rt !! c) as [[|k due tk| |]|]; try done.
  set (rt1 := setWorld _ rt).
  assert (H1 : Configured s0 rt1) by done.
  destruct k as [|id d a r b|id d a|id st].
  - by apply Configured_drainFrom.
  - by apply Configured_afterProvider.
  - by apply Configured_attemptFrom.
  - pose proof (recordOutcome_service id st (service rt1) (world rt1)) as Hs.
    destruct (recordOutcome id st (service rt1) (world rt1)) as [s' evs0]. simpl in Hs.
    apply Configured_drainFrom. revert H1. apply Configured_same; simpl; by rewrite Hs.
Qed.

Lemma Configured_startSendEmail s0 id d rt :
  Configured s0 rt -> Configured s0 (startSendEmail id d rt).
Proof.
  intros H. unfold startSendEmail. simpl.
  destruct (decide (id ∈ sentEmails (service rt))); [done|].
  by apply Configured_drainFrom.
Qed.

Lemma Moves_configured s0 rt rt' : Moves rt rt' -> Configured s0 rt -> Configured s0 rt'.
Proof.
  induction 1 as [rt|id d rt rt' _ IH|c rt rt' _ IH]; intros H; [done|..].
  - by apply IH, Configured_startSendEmail.
  - by apply IH, Configured_resume.
Qed.

(** X18. However the calls of [sendEmail] overlap and whatever the providers
    throw, the provider list, [maxRetries] and [rateLimit] stay as they were
    and the cursor stays a valid index into the provider list, from any
    state in which it is one. *)
Theorem cursor_valid_in_any_order s w bare rt :
  currentProviderIndex s < length (providers s) ->
  Moves (boot s w bare) rt ->
  providers (service rt) = providers s /\
  maxRetries (service rt) = maxRetries s /\
  rateLimit (service rt) = rateLimit s /\
  currentProviderIndex (service rt) < length (providers s).
Proof.
  intros Hj Hmoves. apply (Moves_configured s _ _ Hmoves). by split.
Qed.

Lemma cursor_valid_in_any_order_witness :
  exists rt,
    overlapping 6 [mkEntry "m1" welcome; mkEntry "m2" update]
      (boot (constructor [slowOnSecond; backup; reliable] 1 5) epoch errorsOnly) = Some rt /\
    currentProviderIndex (service rt) = 2 /\
    providers (service rt) = [slowOnSecond; backup; reliable] /\
    maxRetries (service rt) = 1 /\
    rateLimit (service rt) = 5 /\
    currentProviderIndex (service rt) < 3.
Proof.
  destruct (overlapping 6 _ _) as [rt|] eqn:E; [|vm_compute in E; discriminate E].
  exists rt. split; [reflexivity|].
  pose proof (overlapping_moves _ _ _ _ E) as Hmoves.
  split; [vm_compute in E; injection E as <-; reflexivity|].
  apply (cursor_valid_in_any_order (constructor [slowOnSecond; backup; reliable] 1 5)
           epoch errorsOnly rt); [simpl; lia|exact Hmoves].
Defined.
